(** * check_shapes parser: argument-spec model builder and docstring rewriter

    A shallow embedding of [gpflow/experimental/check_shapes/parser.py] and
    the properties of it that the specification states.

    Conventions of the embedding:
    - a Python [str] is a [string]; each [ascii] stands for one code point
      below 256;
    - a Python [int] is a [Z]; source offsets and lengths, which are never
      negative, are [nat];
    - a raised exception is the [Raise] case of [result]; only the class of
      an exception (and, for the two parse errors, its payload) is kept;
    - a [dict] is a [gmap]; module-level dictionaries are threaded through
      the entry points as explicit state. *)

From Stdlib Require Import ZArith Ascii String DecimalString.
From Stdlib Require DecimalPos.
From stdpp Require Import gmap strings list sorting.

Local Open Scope Z_scope.
#[local] Set Warnings "-register-all".

(** ** Python built-ins used by the module *)

Module Py.

(** [str.isspace] on one code point below 256. *)
Definition isspace (c : ascii) : bool :=
  let n := N_of_ascii c in
  ((9 <=? n) && (n <=? 13) || (28 <=? n) && (n <=? 32)
   || (n =? 133) || (n =? 160))%N.

(** [len(s)]. *)
Definition len (s : string) : nat := String.length s.

(** [s[a:]] and [s[:b]] for offsets that are not negative. *)
Fixpoint drop (a : nat) (s : string) : string :=
  match a, s with
  | O, _ => s
  | S a', String _ s' => drop a' s'
  | S _, EmptyString => EmptyString
  end.

Fixpoint take (b : nat) (s : string) : string :=
  match b, s with
  | S b', String c s' => String c (take b' s')
  | _, _ => EmptyString
  end.

(** [s[a:b]] for offsets that are not negative: empty when [b <= a],
    clamped to the end of [s]. *)
Definition slice (s : string) (a b : nat) : string :=
  take (b - a) (drop a s).

(** [s.lstrip()]. *)
Fixpoint lstrip (s : string) : string :=
  match s with
  | String c s' => if isspace c then lstrip s' else s
  | EmptyString => EmptyString
  end.

(** [s.rstrip()]. *)
Fixpoint rstrip (s : string) : string :=
  match s with
  | String c s' =>
      match rstrip s' with
      | EmptyString => if isspace c then EmptyString else String c EmptyString
      | r => String c r
      end
  | EmptyString => EmptyString
  end.

(** [n * " "]: empty when [n] is not positive. *)
Definition spaces (n : Z) : string :=
  string_of_list_ascii (replicate (Z.to_nat n) " "%char).

(** [s.expandtabs()] with the default tab size 8; [col] is the column
    reached so far, reset by a line feed or a carriage return. *)
Fixpoint expandtabs_from (col : nat) (s : string) : string :=
  match s with
  | EmptyString => EmptyString
  | String c s' =>
      if Ascii.eqb c "009" then
        let incr := (8 - col mod 8)%nat in
        spaces (Z.of_nat incr) +:+ expandtabs_from (col + incr) s'
      else if Ascii.eqb c "010" || Ascii.eqb c "013" then
        String c (expandtabs_from 0 s')
      else String c (expandtabs_from (S col) s')
  end.

Definition expandtabs (s : string) : string := expandtabs_from 0 s.

(** The characters at which [str.splitlines] breaks a line. *)
Definition is_linebreak (c : ascii) : bool :=
  let n := N_of_ascii c in
  ((10 <=? n) && (n <=? 13) || (28 <=? n) && (n <=? 30) || (n =? 133))%N.

(** [s.splitlines()]: [cur] is the line being read, reversed, or [None]
    at the start of a line; a carriage return directly followed by a line
    feed is one break; a break at the very end opens no further line. *)
Fixpoint splitlines_go (cur : option string) (s : string) : list string :=
  match s with
  | EmptyString =>
      match cur with
      | None => []
      | Some l => [String.rev l]
      end
  | String c s' =>
      if is_linebreak c then
        String.rev (default EmptyString cur) ::
          match s' with
          | String d s'' =>
              if Ascii.eqb c "013" && Ascii.eqb d "010"
              then splitlines_go None s''
              else splitlines_go None s'
          | EmptyString => []
          end
      else splitlines_go (Some (String c (default EmptyString cur))) s'
  end.

Definition splitlines (s : string) : list string := splitlines_go None s.

(** The white space that [int] drops around a number: the characters of
    [str.isspace] except the separators 28 to 31. *)
Definition int_isspace (c : ascii) : bool :=
  let n := N_of_ascii c in
  ((9 <=? n) && (n <=? 13) || (n =? 32) || (n =? 133) || (n =? 160))%N.

Fixpoint int_lstrip (s : string) : string :=
  match s with
  | String c s' => if int_isspace c then int_lstrip s' else s
  | EmptyString => EmptyString
  end.

Fixpoint int_rstrip (s : string) : string :=
  match s with
  | String c s' =>
      match int_rstrip s' with
      | EmptyString => if int_isspace c then EmptyString else String c EmptyString
      | r => String c r
      end
  | EmptyString => EmptyString
  end.

(** [int(s)] in base 10: surrounding white space is dropped, a sign may
    lead, and single underscores may separate digits; [None] where
    Python raises [ValueError]. *)
Definition digit_of (c : ascii) : option Z :=
  let n := N_of_ascii c in
  if ((48 <=? n) && (n <=? 57))%N then Some (Z.of_N (n - 48)) else None.

Fixpoint int_digits (acc : Z) (after_digit : bool) (s : string) : option Z :=
  match s with
  | EmptyString => if after_digit then Some acc else None
  | String c s' =>
      match digit_of c with
      | Some d => int_digits (10 * acc + d) true s'
      | None =>
          if Ascii.eqb c "_" && after_digit then int_digits acc false s' else None
      end
  end.

Definition int_of_str (s : string) : option Z :=
  match int_rstrip (int_lstrip s) with
  | String c r =>
      if Ascii.eqb c "-" then Z.opp <$> int_digits 0 false r
      else if Ascii.eqb c "+" then int_digits 0 false r
      else int_digits 0 false (String c r)
  | EmptyString => None
  end.

(** [str(n)] for an [int]. *)
Definition str_of_int (n : Z) : string := NilZero.string_of_int (Z.to_int n).

(** [sep.join(parts)]. *)
Definition join (sep : string) (parts : list string) : string :=
  String.concat sep parts.

End Py.

(** The control characters that the statements below write out. *)
Definition LF : string := String "010" EmptyString.
Definition TAB : string := String "009" EmptyString.
Definition QUOTE : string := String "034" EmptyString.

(** ** The grammar engine (Lark), as far as the module reads it *)

(** [Tree.meta] with [propagate_positions=True]: the span of a node in the
    parsed text. *)
Record Meta := mkMeta { start_pos : nat; end_pos : nat }.

(** A child of a tree is a [Tree] (rule name, children, span) or a [Token]
    (terminal name, matched text). *)
Inductive Node :=
| Tree (data : string) (children : list Node) (meta : Meta)
| Token (type_ : string) (value : string).

(** [UnexpectedInput]: where the text stopped conforming and which
    terminals would have been accepted there. *)
Record UnexpectedInput := mkUnexpectedInput {
  pos_in_stream : nat;
  line : nat;
  column : nat;
  expected : list string
}.

(** [lark.lexer.Pattern]: a literal string or a regular expression; there
    is no third kind, so [assert isinstance(pattern, PatternRE)] in the
    branch that is not a literal holds by the type. *)
Inductive Pattern :=
| PatternStr (value : string)
| PatternRE (value : string).

Record TerminalDef := mkTerminalDef { name : string; pattern : Pattern }.

(** A loaded grammar: its terminals and its [parse] method. The grammar
    files are not part of the module, so a [Lark] is a parameter of
    everything that uses one. *)
Record Lark := mkLark {
  terminals : list TerminalDef;
  parse : string -> UnexpectedInput + Node
}.

(** ** The parsed model ([argument_ref.py], [specs.py]) *)

(** Modelled from the spec: the [ArgumentRef] variants of [argument_ref.py]
    ("polymorphic over variants Root, Attribute, Index"; each non-root
    variant holds its parent reference), with the argument order of the
    constructor calls in [parser.py]. *)
Inductive ArgumentRef :=
| RootArgumentRef (argument_name : string)
| AttributeArgumentRef (source : ArgumentRef) (attribute_name : string)
| IndexArgumentRef (source : ArgumentRef) (index : Z).

(** Modelled from the spec: [ArgumentRef.root_argument_name], "the name
    carried by that Root". *)
Fixpoint root_argument_name (r : ArgumentRef) : string :=
  match r with
  | RootArgumentRef n => n
  | AttributeArgumentRef s _ => root_argument_name s
  | IndexArgumentRef s _ => root_argument_name s
  end.

(** Modelled from the spec: [repr] of an [ArgumentRef], "the argument
    reference's display form": the path as it is written in a
    specification. *)
Fixpoint repr (r : ArgumentRef) : string :=
  match r with
  | RootArgumentRef n => n
  | AttributeArgumentRef s a => repr s +:+ "." +:+ a
  | IndexArgumentRef s i => repr s +:+ "[" +:+ Py.str_of_int i +:+ "]"
  end.

(** Modelled from the spec: [RESULT_TOKEN] of [argument_ref.py], the
    reserved root name of the return value (as in ["return: [batch, n]"]). *)
Definition RESULT_TOKEN : string := "return".

(** Modelled from the spec: the classes [ParsedDimensionSpec],
    [ParsedShapeSpec] and [ParsedArgumentSpec] of [specs.py], with the
    fields that [parser.py] sets and reads. *)
Record ParsedDimensionSpec := mkParsedDimensionSpec {
  constant : option Z;
  variable_name : option string;
  variable_rank : bool
}.

Record ParsedShapeSpec := mkParsedShapeSpec { dims : list ParsedDimensionSpec }.

Record ParsedArgumentSpec := mkParsedArgumentSpec {
  argument_ref : ArgumentRef;
  shape : ParsedShapeSpec
}.

(** ** Exceptions *)

(** Modelled from the spec: the error contexts of [error_contexts.py] that
    [parser.py] builds; [CallerContext] stands for whatever context the
    caller supplies. *)
Inductive ErrorContext :=
| CallerContext (description : string)
| StackContext (parent child : ErrorContext)
| LarkUnexpectedInputContext
    (text : string) (error : UnexpectedInput) (terminal_descriptions : gmap string string).

Inductive exn :=
| AssertionError
| ValueError
| TypeError
| KeyError
| AttributeError
| RecursionError
| OtherAttribute
| SpecificationParseError (context : ErrorContext)
| DocstringParseError (context : ErrorContext).

Inductive result (A : Type) :=
| Ok (a : A)
| Raise (e : exn).
Arguments Ok {A} a.
Arguments Raise {A} e.

#[global] Instance result_fmap : FMap result :=
  fun _ _ f r => match r with Ok a => Ok (f a) | Raise e => Raise e end.
#[global] Instance result_ret : MRet result := fun _ a => Ok a.
#[global] Instance result_bind : MBind result :=
  fun _ _ f r => match r with Ok a => f a | Raise e => Raise e end.

Lemma bind_Ok {A B} (x : result A) (f : A -> result B) (b : B) :
  x ≫= f = Ok b -> exists a, x = Ok a /\ f a = Ok b.
Proof. destruct x as [a|e]; [|discriminate]. intros H. by exists a. Qed.

(** Takes apart a hypothesis saying that a sequence of steps returned. *)
Ltac invert_Ok H :=
  repeat match type of H with
    | mbind _ _ = Ok _ =>
        let a := fresh "v" in
        let Ha := fresh "Hv" in
        apply bind_Ok in H as (a & Ha & H)
    | Raise _ = Ok _ => discriminate H
    | match ?x with _ => _ end = Ok _ => destruct x eqn:?; try discriminate H
    end.

(** [assert b]. *)
Definition assert (b : bool) : result unit :=
  if b then Ok tt else Raise AssertionError.

(** ** [_TreeVisitor] *)

Definition is_tree (n : Node) : bool :=
  match n with Tree _ _ _ => true | Token _ _ => false end.

(** [_tree_children(tree)]: the children of [tree] that are trees. *)
Definition _tree_children (tree : Node) : list Node :=
  match tree with
  | Tree _ children _ => filter is_tree children
  | Token _ _ => []
  end.

(** [_token_children(tree)]: the values of the children that are tokens. *)
Definition _token_children (tree : Node) : list string :=
  match tree with
  | Tree _ children _ =>
      omap (fun c => match c with Token _ v => Some v | Tree _ _ _ => None end) children
  | Token _ _ => []
  end.

(** A name that starts with an underscore: the helper methods and the
    attributes of the visitor classes, and the attributes every object
    has, are named so. *)
Definition is_private (name : string) : bool :=
  match name with
  | String c _ => Ascii.eqb c "_"
  | EmptyString => false
  end.

(** What [visit] raises on a node whose name is not the name of a rule
    method. The only other public attribute of a visitor is [visit]
    itself: [getattr] finds it and the call enters [visit] again with the
    same node, without end. A name that is no attribute at all gives
    [None], and the assertion fails. A private name may be an attribute
    of any kind (a helper method, a string, [None]); what the call does
    then is not modelled and is marked [OtherAttribute]: Lark inlines the
    rules whose names start with an underscore, so no tree that it builds
    has such a node. *)
Definition missing_method (name : string) : exn :=
  if String.eqb "visit" name then RecursionError
  else if is_private name then OtherAttribute
  else AssertionError.

Module TreeVisitor.
Section Visitor.
(** [Args]: what a call passes besides the tree; [Val]: what a method
    returns. *)
Context {Args Val : Type}.

(** A tree child as a method sees it: the child, and what
    [self.visit(child, ...)] does on it. *)
Record Child := mkChild {
  child_tree : Node;
  visit_child : Args -> result Val
}.

(** A method of a visitor class: it gets the tree children and the token
    children of its tree, and the arguments of the call. *)
Definition method := list Child -> list string -> Args -> result Val.

(** The methods of the class that are named like rules. *)
Variable methods : string -> option method.

(** [_TreeVisitor.visit]: [getattr(self, name, None)] finds the rule
    method of that name, or else what [missing_method] tells. *)
Fixpoint visit (tree : Node) (args : Args) {struct tree} : result Val :=
  match tree with
  | Token _ _ => Raise AttributeError (* a token has no [data] *)
  | Tree data children _ =>
      match methods data with
      | None => Raise (missing_method data)
      | Some m =>
          m (omap (fun c => if is_tree c then Some (mkChild c (visit c)) else None)
               children)
            (_token_children tree) args
      end
  end.

(** The tree children of a node, each with its visit. *)
Definition visited_children (tree : Node) : list Child :=
  (fun c => mkChild c (visit c)) <$> _tree_children tree.

Lemma omap_is_tree {B} (f : Node -> B) (cs : list Node) :
  omap (fun c => if is_tree c then Some (f c) else None) cs
  = f <$> filter is_tree cs.
Proof.
  induction cs as [|c cs IH]; [done|].
  destruct c as [d cs' m'|ty v].
  - rewrite filter_cons_True by done. cbn. by rewrite IH.
  - rewrite filter_cons_False by (cbn; tauto). cbn. by rewrite IH.
Qed.

Lemma visit_unfold data children meta args :
  visit (Tree data children meta) args =
    match methods data with
    | None => Raise (missing_method data)
    | Some m =>
        m (visited_children (Tree data children meta))
          (_token_children (Tree data children meta)) args
    end.
Proof.
  cbn [visit]. destruct (methods data) as [m|]; [|done].
  by rewrite omap_is_tree.
Qed.
End Visitor.
Arguments Child : clear implicits.
Arguments method : clear implicits.
End TreeVisitor.
Import TreeVisitor(Child, mkChild, child_tree, visit_child, method, visited_children, visit_unfold).

(** A left fold whose step may raise: the shape of a [for] loop that
    updates one variable. *)
Fixpoint foldM {A B} (f : B -> A -> result B) (b : B) (l : list A) : result B :=
  match l with
  | [] => Ok b
  | a :: l' => b' ← f b a; foldM f b' l'
  end.

(** A map whose function may raise: a comprehension. *)
Fixpoint mapM' {A B} (f : A -> result B) (l : list A) : result (list B) :=
  match l with
  | [] => Ok []
  | a :: l' => b ← f a; bs ← mapM' f l'; Ok (b :: bs)
  end.

(** The method of a class that is named [name], if any. *)
Fixpoint lookup_method {M} (name : string) (methods : list (string * M)) : option M :=
  match methods with
  | [] => None
  | (n, m) :: rest => if String.eqb n name then Some m else lookup_method name rest
  end.

Lemma mapM'_Forall {A B} (f : A -> result B) (P : B -> Prop) (l : list A) (bs : list B) :
  (forall a b, a ∈ l -> f a = Ok b -> P b) ->
  mapM' f l = Ok bs -> Forall P bs.
Proof.
  revert bs. induction l as [|a l IH]; intros bs Hf H; cbn in H.
  - injection H as <-. constructor.
  - invert_Ok H. injection H as <-. constructor.
    + eapply Hf; [left|done].
    + apply IH; [|done]. intros a' b' Hin. apply Hf. by right.
Qed.

(** ** [_ParseArgumentSpec] *)

(** What the methods of [_ParseArgumentSpec] return. The model classes are
    typed as their annotations say: where a method puts the result of a
    visit into a field of another class than the annotated one, the model
    reports [TypeError] (Python would store it unchecked; no tree of the
    grammar gets there). *)
Inductive pvalue :=
| VRef (r : ArgumentRef)
| VDim (d : ParsedDimensionSpec)
| VDims (ds : list ParsedDimensionSpec)
| VShape (s : ParsedShapeSpec)
| VSpec (a : ParsedArgumentSpec).

Definition as_ref (v : pvalue) : result ArgumentRef :=
  match v with VRef r => Ok r | _ => Raise TypeError end.
Definition as_dim (v : pvalue) : result ParsedDimensionSpec :=
  match v with VDim d => Ok d | _ => Raise TypeError end.
Definition as_dims (v : pvalue) : result (list ParsedDimensionSpec) :=
  match v with VDims d => Ok d | _ => Raise TypeError end.
Definition as_shape (v : pvalue) : result ParsedShapeSpec :=
  match v with VShape s => Ok s | _ => Raise TypeError end.

(** [int(token)]. *)
Definition int (token : string) : result Z :=
  match Py.int_of_str token with
  | Some n => Ok n
  | None => Raise ValueError
  end.

Module ParseArgumentSpec.

Abbreviation pmethod := (method (list pvalue) pvalue).
Abbreviation pchild := (Child (list pvalue) pvalue).

Definition argument_spec : pmethod := fun trees tokens args =>
  match args with
  | [] =>
      match trees with
      | [argument_name; argument_refs; shape_spec] =>
          root_argument_ref ← visit_child argument_name [];
          argument_ref ← visit_child argument_refs [root_argument_ref];
          shape ← visit_child shape_spec [argument_ref];
          r ← as_ref argument_ref;
          s ← as_shape shape;
          Ok (VSpec (mkParsedArgumentSpec r s))
      | _ => Raise ValueError
      end
  | _ => Raise TypeError
  end.

Definition argument_name : pmethod := fun trees tokens args =>
  match args with
  | [] =>
      match tokens with
      | [token] => Ok (VRef (RootArgumentRef token))
      | _ => Raise ValueError
      end
  | _ => Raise TypeError
  end.

Definition argument_refs : pmethod := fun trees tokens args =>
  match args with
  | [result] =>
      foldM (fun result (argument_ref : pchild) => visit_child argument_ref [result])
        result trees
  | _ => Raise TypeError
  end.

Definition argument_ref_attribute : pmethod := fun trees tokens args =>
  match args with
  | [source] =>
      match tokens with
      | [token] => s ← as_ref source; Ok (VRef (AttributeArgumentRef s token))
      | _ => Raise ValueError
      end
  | _ => Raise TypeError
  end.

Definition argument_ref_index : pmethod := fun trees tokens args =>
  match args with
  | [source] =>
      match tokens with
      | [token] =>
          i ← int token; s ← as_ref source; Ok (VRef (IndexArgumentRef s i))
      | _ => Raise ValueError
      end
  | _ => Raise TypeError
  end.

Definition shape_spec : pmethod := fun trees tokens args =>
  match args with
  | [argument_ref] =>
      match trees with
      | [dimension_specs] =>
          v ← visit_child dimension_specs [];
          ds ← as_dims v;
          Ok (VShape (mkParsedShapeSpec ds))
      | _ => Raise ValueError
      end
  | _ => Raise TypeError
  end.

Definition dimension_specs : pmethod := fun trees tokens args =>
  match args with
  | [] =>
      ds ← mapM' (fun dimension_spec : pchild =>
                    v ← visit_child dimension_spec []; as_dim v) trees;
      Ok (VDims ds)
  | _ => Raise TypeError
  end.

Definition dimension_spec_constant : pmethod := fun trees tokens args =>
  match args with
  | [] =>
      match tokens with
      | [token] =>
          n ← int token;
          Ok (VDim (mkParsedDimensionSpec (Some n) None false))
      | _ => Raise ValueError
      end
  | _ => Raise TypeError
  end.

Definition dimension_spec_variable : pmethod := fun trees tokens args =>
  match args with
  | [] =>
      match tokens with
      | [token] => Ok (VDim (mkParsedDimensionSpec None (Some token) false))
      | _ => Raise ValueError
      end
  | _ => Raise TypeError
  end.

Definition dimension_spec_anonymous : pmethod := fun trees tokens args =>
  match args with
  | [] => Ok (VDim (mkParsedDimensionSpec None None false))
  | _ => Raise TypeError
  end.

Definition dimension_spec_variable_rank : pmethod := fun trees tokens args =>
  match args with
  | [] =>
      match tokens with
      | [token1; token2] =>
          variable_name ←
            (if String.eqb token1 "*" then Ok token2
             else _ ← assert (String.eqb token2 "..."); Ok token1);
          Ok (VDim (mkParsedDimensionSpec None (Some variable_name) true))
      | _ => Raise ValueError
      end
  | _ => Raise TypeError
  end.

Definition dimension_spec_anonymous_variable_rank : pmethod := fun trees tokens args =>
  match args with
  | [] => Ok (VDim (mkParsedDimensionSpec None None true))
  | _ => Raise TypeError
  end.

(** The methods of the class, by rule name. *)
Definition methods : list (string * pmethod) :=
  [ ("argument_spec", argument_spec);
    ("argument_name", argument_name);
    ("argument_refs", argument_refs);
    ("argument_ref_attribute", argument_ref_attribute);
    ("argument_ref_index", argument_ref_index);
    ("shape_spec", shape_spec);
    ("dimension_specs", dimension_specs);
    ("dimension_spec_constant", dimension_spec_constant);
    ("dimension_spec_variable", dimension_spec_variable);
    ("dimension_spec_anonymous", dimension_spec_anonymous);
    ("dimension_spec_variable_rank", dimension_spec_variable_rank);
    ("dimension_spec_anonymous_variable_rank", dimension_spec_anonymous_variable_rank) ].

Definition getattr (name : string) : option pmethod := lookup_method name methods.

(** [_ParseArgumentSpec().visit(tree, *args)]. *)
Definition visit : Node -> list pvalue -> result pvalue := TreeVisitor.visit getattr.

End ParseArgumentSpec.

(** ** [_RewritedocString] *)

(** The span of a tree; methods only ask for it on tree children. *)
Definition node_meta (tree : Node) : Meta :=
  match tree with
  | Tree _ _ m => m
  | Token _ _ => mkMeta 0 0
  end.

(** What a call of [visit] passes besides the tree: nothing, or the list
    [out] written so far and the cursor [pos]. *)
Inductive rargs :=
| NoArgs
| OutPos (out : list string) (pos : nat).

(** What a method returns: a string, or the new cursor together with the
    list [out] as the method left it ([out] is one list object that every
    method appends to). *)
Inductive rvalue :=
| RStr (s : string)
| RPos (out : list string) (pos : nat).

Definition as_str (v : rvalue) : result string :=
  match v with RStr s => Ok s | RPos _ _ => Raise TypeError end.
Definition as_pos (v : rvalue) : result (list string * nat) :=
  match v with RPos out pos => Ok (out, pos) | RStr _ => Raise TypeError end.

Module RewritedocString.

Abbreviation rmethod := (method rargs rvalue).
Abbreviation rchild := (Child rargs rvalue).

Definition _shape_spec_to_sphinx (shape_spec : ParsedShapeSpec) : string :=
  let out :=
    (fun dim =>
       match constant dim with
       | Some c => Py.str_of_int c
       | None =>
           match variable_name dim with
           | Some n =>
               let suffix := if variable_rank dim then "..." else "" in
               "*" +:+ n +:+ "*" +:+ suffix
           | None => if variable_rank dim then "..." else "."
           end
       end) <$> dims shape_spec in
  Py.join ", " out.

Definition _argument_spec_to_sphinx (argument_spec : ParsedArgumentSpec) : string :=
  let out :=
    [ "* **" +:+ repr (argument_ref argument_spec) +:+ "**";
      " has shape [";
      _shape_spec_to_sphinx (shape argument_spec);
      "]." ] in
  Py.join "" out.

(** [lines.sort()] on strings: ascending by code points. *)
Definition sort_lines (lines : list string) : list string :=
  merge_sort String.le lines.

Definition _argument_specs_to_sphinx (argument_specs : list ParsedArgumentSpec)
  : gmap string (list string) :=
  let result :=
    foldl (fun (result : gmap string (list string)) spec =>
             let key := root_argument_name (argument_ref spec) in
             <[key := default [] (result !! key) ++ [_argument_spec_to_sphinx spec]]> result)
      ∅ argument_specs in
  sort_lines <$> result.

Definition _guess_indent (docstring : string) : option Z :=
  let lines := Py.splitlines (Py.expandtabs docstring) in
  let no_indent := -1 in
  let indent :=
    foldl (fun indent line =>
             let stripped := Py.lstrip line in
             if String.eqb stripped "" then indent
             else
               let line_indent := Z.of_nat (Py.len line) - Z.of_nat (Py.len stripped) in
               if (indent =? no_indent) || (line_indent <? indent)
               then line_indent else indent)
      no_indent (tail lines) in
  if indent =? no_indent then None else Some indent.

(** The attributes set by [__init__]. *)
Record t := mk {
  _source : string;
  _spec_lines : gmap string (list string);
  _indent : option Z
}.

Definition __init__ (source : string) (argument_specs : list ParsedArgumentSpec) : t :=
  {| _source := source;
     _spec_lines := _argument_specs_to_sphinx argument_specs;
     _indent := _guess_indent source |}.

Section Methods.
Variable self : t.

Definition _insert_spec_lines
    (out : list string) (pos : nat) (spec_lines : list string) (docs : Node)
  : list string * nat :=
  let leading_str :=
    Py.rstrip (Py.slice (_source self) pos (start_pos (node_meta docs))) in
  let docs_start := (pos + Py.len leading_str)%nat in
  let docs_str := Py.slice (_source self) docs_start (end_pos (node_meta docs)) in
  let trailing_str := Py.lstrip docs_str in
  let docs_indent :=
    match _guess_indent docs_str with
    | Some docs_indent => docs_indent
    | None =>
        match _indent self with
        | None => 4
        | Some indent => indent + 4
        end
    end in
  let indent_str := LF +:+ Py.spaces docs_indent in
  let out := out ++ [leading_str] in
  let out := foldl (fun out spec_line => out ++ [indent_str] ++ [spec_line]) out spec_lines in
  let out := out ++ [LF] in
  let out := out ++ [indent_str] in
  let out := out ++ [trailing_str] in
  (out, end_pos (node_meta docs)).

Definition docstring : rmethod := fun trees tokens args =>
  match args with
  | NoArgs =>
      match trees with
      | [_docs; info_fields] =>
          v ← visit_child info_fields (OutPos [] 0%nat);
          '(out, pos) ← as_pos v;
          let out := out ++ [Py.drop pos (_source self)] in
          Ok (RStr (Py.join "" out))
      | _ => Raise ValueError
      end
  | _ => Raise TypeError
  end.

Definition info_fields : rmethod := fun trees tokens args =>
  match args with
  | OutPos out pos =>
      '(out, pos) ← foldM (fun '(out, pos) (child : rchild) =>
                             v ← visit_child child (OutPos out pos); as_pos v)
                          (out, pos) trees;
      Ok (RPos out pos)
  | _ => Raise TypeError
  end.

(** [if spec_lines: pos = self._insert_spec_lines(...)]. *)
Definition insert_if_any
    (spec_lines : option (list string)) (out : list string) (pos : nat) (docs : Node)
  : rvalue :=
  match spec_lines with
  | Some (l :: ls) =>
      let '(out, pos) := _insert_spec_lines out pos (l :: ls) docs in RPos out pos
  | _ => RPos out pos
  end.

Definition info_field_param : rmethod := fun trees tokens args =>
  match args with
  | OutPos out pos =>
      match trees with
      | [info_field_args; docs] =>
          v ← visit_child info_field_args NoArgs;
          arg_name ← as_str v;
          let spec_lines := _spec_lines self !! arg_name in
          Ok (insert_if_any spec_lines out pos (child_tree docs))
      | _ => Raise ValueError
      end
  | _ => Raise TypeError
  end.

Definition info_field_returns : rmethod := fun trees tokens args =>
  match args with
  | OutPos out pos =>
      match trees with
      | [docs] =>
          let spec_lines := _spec_lines self !! RESULT_TOKEN in
          Ok (insert_if_any spec_lines out pos (child_tree docs))
      | _ => Raise ValueError
      end
  | _ => Raise TypeError
  end.

Definition info_field_other : rmethod := fun trees tokens args =>
  match args with
  | OutPos out pos => Ok (RPos out pos)
  | _ => Raise TypeError
  end.

Definition info_field_args : rmethod := fun trees tokens args =>
  match args with
  | NoArgs =>
      match last tokens with
      | None => Ok (RStr "")
      | Some token => Ok (RStr token)
      end
  | _ => Raise TypeError
  end.

(** The methods of the class, by rule name. *)
Definition methods : list (string * rmethod) :=
  [ ("docstring", docstring);
    ("info_fields", info_fields);
    ("info_field_param", info_field_param);
    ("info_field_returns", info_field_returns);
    ("info_field_other", info_field_other);
    ("info_field_args", info_field_args) ].

Definition getattr (name : string) : option rmethod := lookup_method name methods.

(** [self.visit(tree, *args)]. *)
Definition visit : Node -> rargs -> result rvalue := TreeVisitor.visit getattr.
End Methods.

(** [_RewritedocString(source, argument_specs).visit(tree)]. *)
Definition rewrite
    (source : string) (argument_specs : list ParsedArgumentSpec) (tree : Node)
  : result string :=
  v ← visit (__init__ source argument_specs) tree NoArgs; as_str v.

End RewritedocString.

(** ** Module level: terminal descriptions, caches, entry points *)

(** The three dictionaries and sets that the loop of
    [_create_terminal_descriptions] updates. *)
Record descriptions_state := mkDS {
  missing : gset string;
  unused : gmap string string;
  descriptions : gmap string string
}.

(** One turn of the loop over [parser.terminals]. *)
Definition describe_terminal
    (re_descriptions : gmap string string) (st : descriptions_state) (terminal : TerminalDef)
  : result descriptions_state :=
  let name := name terminal in
  match pattern terminal with
  | PatternStr value =>
      Ok (mkDS (missing st) (unused st)
            (<[name := QUOTE +:+ value +:+ QUOTE]> (descriptions st)))
  | PatternRE value =>
      (* unused.pop(name, None) *)
      match unused st !! name with
      | None =>
          Ok (mkDS ({[name]} ∪ missing st) (unused st)
                (<[name := "ERROR"]> (descriptions st)))
      | Some _ =>
          match re_descriptions !! name with
          | Some d =>
              Ok (mkDS (missing st) (delete name (unused st))
                    (<[name := d +:+ " (re=" +:+ value +:+ ")"]> (descriptions st)))
          | None => Raise KeyError
          end
      end
  end.

Definition _create_terminal_descriptions
    (parser : Lark) (re_descriptions : gmap string string)
  : result (gmap string string) :=
  st ← foldM (describe_terminal re_descriptions)
         (mkDS ∅ re_descriptions ∅) (terminals parser);
  _ ← assert (bool_decide (unused st = ∅));
  _ ← assert (bool_decide (missing st = ∅));
  Ok (descriptions st).

Definition ARGUMENT_SPEC_RE_DESCRIPTIONS : gmap string string :=
  <["CNAME" := "variable name"]> (<["INT" := "integer"]> (<["WS" := "whitespace"]> ∅)).

Definition DOCSTRING_RE_DESCRIPTIONS : gmap string string :=
  <["ANY" := "any text"]>
    (<["CNAME" := "variable name"]>
       (<["INFO_FIELD_OTHER" := "Sphinx info field"]>
          (<["PARAM" := "Sphinx parameter field"]>
             (<["RETURNS" := "Sphinx `return` field"]>
                (<["WS" := "whitespace"]> ∅))))).

(** The module once its top-level statements have run: the two parsers and
    the two description tables. The functions of the module take it as
    their first argument: there is nothing to call before it exists. *)
Record Module := mkModule {
  _ARGUMENT_SPEC_PARSER : Lark;
  _DOCSTRING_PARSER : Lark;
  _ARGUMENT_SPEC_TERMINAL_DESCRIPTIONS : gmap string string;
  _DOCSTRING_TERMINAL_DESCRIPTIONS : gmap string string
}.

(** Importing the module, given the two grammars that [Lark.open] loads. *)
Definition import_module (argument_spec_parser docstring_parser : Lark) : result Module :=
  d1 ← _create_terminal_descriptions argument_spec_parser ARGUMENT_SPEC_RE_DESCRIPTIONS;
  d2 ← _create_terminal_descriptions docstring_parser DOCSTRING_RE_DESCRIPTIONS;
  Ok (mkModule argument_spec_parser docstring_parser d1 d2).

(** Keys of the docstring cache are hashed: the model classes are
    countable. *)
#[global] Instance ArgumentRef_eq_dec : EqDecision ArgumentRef.
Proof. solve_decision. Defined.
#[global] Instance ParsedDimensionSpec_eq_dec : EqDecision ParsedDimensionSpec.
Proof. solve_decision. Defined.
#[global] Instance ParsedShapeSpec_eq_dec : EqDecision ParsedShapeSpec.
Proof. solve_decision. Defined.
#[global] Instance ParsedArgumentSpec_eq_dec : EqDecision ParsedArgumentSpec.
Proof. solve_decision. Defined.

Fixpoint ref_steps (r : ArgumentRef) : string * list (string + Z) :=
  match r with
  | RootArgumentRef n => (n, [])
  | AttributeArgumentRef s a => (fst (ref_steps s), inl a :: snd (ref_steps s))
  | IndexArgumentRef s i => (fst (ref_steps s), inr i :: snd (ref_steps s))
  end.

Definition ref_of_steps (p : string * list (string + Z)) : ArgumentRef :=
  foldr (fun step r =>
           match step with
           | inl a => AttributeArgumentRef r a
           | inr i => IndexArgumentRef r i
           end) (RootArgumentRef (fst p)) (snd p).

Lemma ref_of_steps_ref_steps r : ref_of_steps (ref_steps r) = r.
Proof.
  unfold ref_of_steps. induction r as [n|s IH a|s IH i]; simpl; [done| |];
    by rewrite IH.
Qed.

#[global] Instance ArgumentRef_countable : Countable ArgumentRef :=
  inj_countable' ref_steps ref_of_steps ref_of_steps_ref_steps.

#[global] Instance ParsedDimensionSpec_countable : Countable ParsedDimensionSpec.
Proof.
  refine (inj_countable'
            (fun d => (constant d, variable_name d, variable_rank d))
            (fun p => mkParsedDimensionSpec p.1.1 p.1.2 p.2) _).
  by intros [].
Defined.

#[global] Instance ParsedShapeSpec_countable : Countable ParsedShapeSpec.
Proof. refine (inj_countable' dims mkParsedShapeSpec _). by intros []. Defined.

#[global] Instance ParsedArgumentSpec_countable : Countable ParsedArgumentSpec.
Proof.
  refine (inj_countable' (fun a => (argument_ref a, shape a))
            (fun p => mkParsedArgumentSpec p.1 p.2) _).
  by intros [].
Defined.

(** The two module-level dictionaries [_ARGUMENT_SPEC_CACHE] and
    [_SPHINX_DOCSTRING_CACHE]: the mutable state of the module. An entry
    point takes the state it finds and returns the state it leaves. *)
Record Caches := mkCaches {
  _ARGUMENT_SPEC_CACHE : gmap string ParsedArgumentSpec;
  _SPHINX_DOCSTRING_CACHE : gmap (string * list ParsedArgumentSpec) string
}.

Definition empty_caches : Caches := mkCaches ∅ ∅.

Definition as_spec (v : pvalue) : result ParsedArgumentSpec :=
  match v with VSpec a => Ok a | _ => Raise TypeError end.

Section EntryPoints.
Variable M : Module.

Definition parse_argument_spec
    (argument_spec : string) (context : ErrorContext) (st : Caches)
  : result ParsedArgumentSpec * Caches :=
  match _ARGUMENT_SPEC_CACHE st !! argument_spec with
  | Some cached_value => (Ok cached_value, st)
  | None =>
      match parse (_ARGUMENT_SPEC_PARSER M) argument_spec with
      | inl e =>
          (Raise (SpecificationParseError
                    (StackContext context
                       (LarkUnexpectedInputContext argument_spec e
                          (_ARGUMENT_SPEC_TERMINAL_DESCRIPTIONS M)))),
           st)
      | inr tree =>
          (v ← ParseArgumentSpec.visit tree []; as_spec v, st)
      end
  end.

Definition _parse_and_rewrite_sphinx_docstring
    (docstring : string) (argument_specs : list ParsedArgumentSpec)
    (context : ErrorContext) (st : Caches)
  : result string * Caches :=
  match _SPHINX_DOCSTRING_CACHE st !! (docstring, argument_specs) with
  | Some cached_value => (Ok cached_value, st)
  | None =>
      match parse (_DOCSTRING_PARSER M) docstring with
      | inl e =>
          (Raise (DocstringParseError
                    (StackContext context
                       (LarkUnexpectedInputContext docstring e
                          (_DOCSTRING_TERMINAL_DESCRIPTIONS M)))),
           st)
      | inr tree =>
          (RewritedocString.rewrite docstring argument_specs tree, st)
      end
  end.
End EntryPoints.

(** * Properties *)

(** ** Rendering of shapes *)

Section Rendering.
Import RewritedocString.

Definition dim_constant (c : Z) : ParsedDimensionSpec :=
  mkParsedDimensionSpec (Some c) None false.
Definition dim_variable (n : string) (rank : bool) : ParsedDimensionSpec :=
  mkParsedDimensionSpec None (Some n) rank.
Definition dim_anonymous (rank : bool) : ParsedDimensionSpec :=
  mkParsedDimensionSpec None None rank.

(** C4. [_shape_spec_to_sphinx] renders a constant dimension as its
    decimal digits (whatever its other fields), a named dimension as the
    name between single asterisks, followed by [...] when it is of
    variable rank, an anonymous dimension as [.], or [...] when it is of
    variable rank, and joins the renderings with a comma and a space; the
    shape [3, batch..., .] renders to [3, *batch*..., .], which
    [_argument_spec_to_sphinx] puts between [has shape [] and [].]. *)
Theorem shape_spec_rendering :
  (forall c n rank,
      _shape_spec_to_sphinx (mkParsedShapeSpec [mkParsedDimensionSpec (Some c) n rank])
      = Py.str_of_int c)
  /\ Py.str_of_int 3 = "3" /\ Py.str_of_int 120 = "120" /\ Py.str_of_int 0 = "0"
  /\ (forall n,
        _shape_spec_to_sphinx (mkParsedShapeSpec [dim_variable n false])
        = "*" +:+ n +:+ "*")
  /\ (forall n,
        _shape_spec_to_sphinx (mkParsedShapeSpec [dim_variable n true])
        = "*" +:+ n +:+ "*...")
  /\ _shape_spec_to_sphinx (mkParsedShapeSpec [dim_anonymous false]) = "."
  /\ _shape_spec_to_sphinx (mkParsedShapeSpec [dim_anonymous true]) = "..."
  /\ _shape_spec_to_sphinx (mkParsedShapeSpec []) = ""
  /\ (forall d d' ds,
        _shape_spec_to_sphinx (mkParsedShapeSpec (d :: d' :: ds))
        = _shape_spec_to_sphinx (mkParsedShapeSpec [d]) +:+ ", "
            +:+ _shape_spec_to_sphinx (mkParsedShapeSpec (d' :: ds)))
  /\ _shape_spec_to_sphinx
       (mkParsedShapeSpec [dim_constant 3; dim_variable "batch" true; dim_anonymous false])
     = "3, *batch*..., ."
  /\ _argument_spec_to_sphinx
       (mkParsedArgumentSpec (RootArgumentRef "x")
          (mkParsedShapeSpec
             [dim_constant 3; dim_variable "batch" true; dim_anonymous false]))
     = "* **x** has shape [3, *batch*..., .].".
Proof.
  repeat split; reflexivity.
Qed.
End Rendering.

(** ** The model builder *)

Section ModelBuilder.
Import ParseArgumentSpec.

(** The tree of the reference [a.b[2]]: the name node and the chain node
    with its two children. *)
Definition name_a : Node := Tree "argument_name" [Token "CNAME" "a"] (mkMeta 0 1).
Definition refs_b_2 : Node :=
  Tree "argument_refs"
    [ Tree "argument_ref_attribute" [Token "CNAME" "b"] (mkMeta 1 3);
      Tree "argument_ref_index" [Token "INT" "2"] (mkMeta 3 6) ]
    (mkMeta 1 6).

(** The tree of [a.b[2]: [3, batch..., .]]. *)
Definition spec_a_b_2 : Node :=
  Tree "argument_spec"
    [ name_a; refs_b_2;
      Tree "shape_spec"
        [ Tree "dimension_specs"
            [ Tree "dimension_spec_constant" [Token "INT" "3"] (mkMeta 9 10);
              Tree "dimension_spec_variable_rank"
                [Token "CNAME" "batch"; Token "ELLIPSIS" "..."] (mkMeta 12 20);
              Tree "dimension_spec_anonymous" [] (mkMeta 22 23) ]
            (mkMeta 9 23) ]
        (mkMeta 8 24) ]
    (mkMeta 0 24).

(** C5. [argument_refs] folds the visits of its tree children from left
    to right over the reference it is given; an attribute child wraps the
    reference in an [AttributeArgumentRef] with its token, an index child
    in an [IndexArgumentRef] with its token read as a signed integer; so
    the tree of [a.b[2]] gives [Index(Attribute(Root a, b), 2)], whose
    root argument name is [a]. *)
Theorem argument_refs_fold :
  (forall children meta result,
      visit (Tree "argument_refs" children meta) [result]
      = foldM (fun result argument_ref => visit argument_ref [result]) result
          (_tree_children (Tree "argument_refs" children meta)))
  /\ (forall ty token meta source,
        visit (Tree "argument_ref_attribute" [Token ty token] meta) [VRef source]
        = Ok (VRef (AttributeArgumentRef source token)))
  /\ (forall ty token meta source,
        visit (Tree "argument_ref_index" [Token ty token] meta) [VRef source]
        = i ← int token; Ok (VRef (IndexArgumentRef source i)))
  /\ int "2" = Ok 2 /\ int "-1" = Ok (-1) /\ int "x" = Raise ValueError
  /\ (r ← visit name_a []; visit refs_b_2 [r])
     = Ok (VRef (IndexArgumentRef (AttributeArgumentRef (RootArgumentRef "a") "b") 2))
  /\ root_argument_name
       (IndexArgumentRef (AttributeArgumentRef (RootArgumentRef "a") "b") 2) = "a"
  /\ argument_ref <$> (v ← visit spec_a_b_2 []; as_spec v)
     = Ok (IndexArgumentRef (AttributeArgumentRef (RootArgumentRef "a") "b") 2).
Proof.
  split; [|repeat split; reflexivity].
  intros children meta result. unfold visit. rewrite visit_unfold.
  change (getattr "argument_refs") with (Some argument_refs).
  unfold argument_refs, visited_children.
  generalize (_tree_children (Tree "argument_refs" children meta)).
  intros l. revert result. induction l as [|c l IH]; intros result; [done|].
  cbn. destruct (TreeVisitor.visit getattr c [result]); [apply IH|done].
Qed.
End ModelBuilder.

(** ** The invariant of dimension specifications *)

Section DimensionInvariant.
Import ParseArgumentSpec.

(** A constant size never comes with the variable-rank flag, and a
    dimension is a constant, or named, or neither: never both a constant
    and named. *)
Definition dimension_invariant (d : ParsedDimensionSpec) : Prop :=
  (constant d <> None -> variable_rank d = false)
  /\ ~ (constant d <> None /\ variable_name d <> None).

(** The five methods that build a [ParsedDimensionSpec]. *)
Definition dimension_handlers : list pmethod :=
  [ dimension_spec_constant; dimension_spec_variable; dimension_spec_anonymous;
    dimension_spec_variable_rank; dimension_spec_anonymous_variable_rank ].

Local Ltac invert_handler H :=
  repeat match type of H with
    | match ?x with _ => _ end = _ => destruct x eqn:?; try discriminate H
    | context [mbind _ ?x] => destruct x eqn:?; cbn in H; try discriminate H
    | Raise _ = Ok _ => discriminate H
    end;
  try (injection H as <-; split; cbn; [done | by intros [_ ?]]);
  try (injection H as <-; split; cbn; [by intros [] | by intros [? _]]).

Lemma dimension_handler_invariant (m : pmethod) trees tokens args d :
  m ∈ dimension_handlers ->
  m trees tokens args = Ok (VDim d) ->
  dimension_invariant d.
Proof.
  unfold dimension_handlers. rewrite !elem_of_cons, elem_of_nil.
  intros [->|[->|[->|[->|[->|[]]]]]] H;
    unfold dimension_spec_constant, dimension_spec_variable, dimension_spec_anonymous,
      dimension_spec_variable_rank, dimension_spec_anonymous_variable_rank in H;
    cbn in H; invert_handler H.
Qed.

Lemma visit_dimension_invariant tree d :
  visit tree [] = Ok (VDim d) -> dimension_invariant d.
Proof.
  destruct tree as [data children meta|]; [|discriminate].
  unfold visit. rewrite visit_unfold.
  unfold getattr, methods. cbn [lookup_method].
  repeat match goal with
    | |- context [if String.eqb ?a data then _ else _] =>
        destruct (String.eqb a data)
    end;
    try discriminate;
    try (apply dimension_handler_invariant; unfold dimension_handlers;
         rewrite !elem_of_cons; tauto).
  - unfold argument_spec. intros H. exfalso.
    destruct (visited_children _) as [|a [|b [|c [|]]]]; try discriminate H.
    invert_Ok H. discriminate H.
  - unfold argument_name. intros H. exfalso. invert_Ok H.
  - unfold dimension_specs. intros H. exfalso. invert_Ok H. discriminate H.
Qed.

(** C7. Whatever tree and arguments one of the five dimension methods is
    given, a [ParsedDimensionSpec] it returns satisfies the invariant;
    so does every one that a visit returns, and every one in the tuple
    that [dimension_specs] returns. *)
Theorem dimension_specs_invariant :
  (forall (m : pmethod) trees tokens args d,
      m ∈ dimension_handlers ->
      m trees tokens args = Ok (VDim d) ->
      dimension_invariant d)
  /\ (forall tree d, visit tree [] = Ok (VDim d) -> dimension_invariant d)
  /\ (forall children meta ds,
        visit (Tree "dimension_specs" children meta) [] = Ok (VDims ds) ->
        Forall dimension_invariant ds).
Proof.
  split; [|split].
  - intros m trees tokens args d. apply dimension_handler_invariant.
  - apply visit_dimension_invariant.
  - intros children meta ds. unfold visit. rewrite visit_unfold.
    change (getattr "dimension_specs") with (Some dimension_specs).
    unfold dimension_specs, visited_children.
    intros H. invert_Ok H. injection H as <-.
    eapply mapM'_Forall; [|done].
    intros c d Hin Hc. unfold visited_children in Hin.
    apply list_elem_of_fmap in Hin as (t & -> & _).
    cbn in Hc. invert_Ok Hc.
    destruct v0 as [|d'| | |]; try discriminate Hc. injection Hc as ->.
    by apply (visit_dimension_invariant t).
Qed.

(** The dimension methods on the trees of [3], [batch...] and [*batch]. *)
Lemma dimension_specs_invariant_witness :
  dimension_invariant (mkParsedDimensionSpec (Some 3) None false)
  /\ dimension_invariant (mkParsedDimensionSpec None (Some "batch") true)
  /\ Forall dimension_invariant
       [ mkParsedDimensionSpec (Some 3) None false;
         mkParsedDimensionSpec None (Some "batch") true;
         mkParsedDimensionSpec None None true ].
Proof.
  split; [|split].
  - apply (proj1 dimension_specs_invariant dimension_spec_constant [] ["3"] []).
    + unfold dimension_handlers. rewrite !elem_of_cons. tauto.
    + reflexivity.
  - apply (proj1 (proj2 dimension_specs_invariant)
             (Tree "dimension_spec_variable_rank"
                [Token "STAR" "*"; Token "CNAME" "batch"] (mkMeta 0 6))).
    reflexivity.
  - apply (proj2 (proj2 dimension_specs_invariant)
             [ Tree "dimension_spec_constant" [Token "INT" "3"] (mkMeta 0 1);
               Tree "dimension_spec_variable_rank"
                 [Token "CNAME" "batch"; Token "ELLIPSIS" "..."] (mkMeta 3 11);
               Tree "dimension_spec_anonymous_variable_rank" [] (mkMeta 13 16) ]
             (mkMeta 0 16)).
    reflexivity.
Defined.
End DimensionInvariant.

(** ** Indentation *)

Section Indentation.
Import RewritedocString.

(** The number of white-space characters that [line] starts with. *)
Fixpoint leading_whitespace (line : string) : nat :=
  match line with
  | String c line' => if Py.isspace c then S (leading_whitespace line') else 0
  | EmptyString => 0
  end.

(** A line with nothing but white space. *)
Definition blank (line : string) : bool := String.eqb (Py.lstrip line) "".

(** The lines that count for the indentation of [docstring]: after tab
    expansion, all lines but the first that are not blank. *)
Definition indented_lines (docstring : string) : list string :=
  filter (fun line => blank line = false) (tail (Py.splitlines (Py.expandtabs docstring))).

Lemma len_lstrip line :
  (Z.of_nat (Py.len line) - Z.of_nat (Py.len (Py.lstrip line)))%Z
  = Z.of_nat (leading_whitespace line).
Proof.
  induction line as [|c line IH]; [done|].
  cbn [Py.lstrip leading_whitespace]. destruct (Py.isspace c).
  - unfold Py.len in *. cbn [String.length]. lia.
  - lia.
Qed.

(** One turn of the loop of [_guess_indent]. *)
Definition guess_step (indent : Z) (line : string) : Z :=
  let stripped := Py.lstrip line in
  if String.eqb stripped "" then indent
  else
    let line_indent := (Z.of_nat (Py.len line) - Z.of_nat (Py.len stripped))%Z in
    if (indent =? -1) || (line_indent <? indent) then line_indent else indent.

Lemma guess_step_eq indent line :
  guess_step indent line =
    if blank line then indent
    else
      let w := Z.of_nat (leading_whitespace line) in
      if (indent =? -1) || (w <? indent) then w else indent.
Proof. unfold guess_step, blank. by rewrite len_lstrip. Qed.

Lemma guess_loop (lines : list string) (indent : Z) :
  -1 <= indent ->
  let r := foldl guess_step indent lines in
  let ws := (fun l => Z.of_nat (leading_whitespace l)) <$>
              filter (fun line => blank line = false) lines in
  -1 <= r
  /\ (r = -1 <-> indent = -1 /\ ws = [])
  /\ (r <> -1 -> (r = indent \/ r ∈ ws) /\ (indent <> -1 -> r <= indent)
                 /\ Forall (Z.le r) ws).
Proof.
  revert indent. induction lines as [|line lines IH]; intros indent Hi; cbn zeta.
  - cbn. repeat split; auto; try lia; try tauto.
  - cbn [foldl]. rewrite guess_step_eq, filter_cons.
    destruct (blank line) eqn:Hb.
    + rewrite decide_False by done. apply IH, Hi.
    + rewrite decide_True by done. rewrite fmap_cons.
      set (w := Z.of_nat (leading_whitespace line)).
      assert (0 <= w) by lia.
      set (i' := if (indent =? -1) || (w <? indent) then w else indent).
      assert (0 <= i' /\ i' <= w /\ (i' = w \/ i' = indent) /\ (indent <> -1 -> i' <= indent))
        as (Hi0 & Hiw & Hcase & Hle).
      { unfold i'. destruct (Z.eqb_spec indent (-1)); cbn; [lia|].
        destruct (Z.ltb_spec w indent); lia. }
      destruct (IH i') as (Hr & Hnone & Hsome); [lia|]. cbn zeta in *.
      set (r := foldl guess_step i' lines) in *.
      set (ws := _ <$> filter _ lines) in *.
      split; [done|]. split.
      * split; [intros Hr1; apply Hnone in Hr1; lia | intros [_ ?]; done].
      * intros Hne. destruct (Hsome Hne) as (Hor & Hle' & Hall).
        assert (r <= i') by (apply Hle'; lia).
        split; [|split].
        -- destruct Hor as [->|Hin]; [|right; by right].
           destruct Hcase as [->| ->]; [right; left|left]; done.
        -- intros Hind. specialize (Hle Hind). lia.
        -- constructor; [lia|done].
Qed.

Lemma foldl_spec_lines (indent_str : string) (spec_lines out : list string) :
  foldl (fun out spec_line => out ++ [indent_str] ++ [spec_line]) out spec_lines
  = out ++ concat ((fun spec_line => [indent_str; spec_line]) <$> spec_lines).
Proof.
  revert out. induction spec_lines as [|l ls IH]; intros out; cbn.
  - by rewrite app_nil_r.
  - rewrite IH. by rewrite <- (assoc_L (++)).
Qed.

(** The indentation that the inserted lines of a field get: the one
    inferred from the text of the field, else the base indentation plus
    four, else four. *)
Definition field_indent (base : option Z) (docs_str : string) : Z :=
  match _guess_indent docs_str with
  | Some n => n
  | None =>
      match base with
      | Some b => b + 4
      | None => 4
      end
  end.

Lemma insert_spec_lines_eq self out pos spec_lines docs :
  let leading_str :=
    Py.rstrip (Py.slice (_source self) pos (start_pos (node_meta docs))) in
  let docs_str :=
    Py.slice (_source self) (pos + Py.len leading_str) (end_pos (node_meta docs)) in
  let indent_str := LF +:+ Py.spaces (field_indent (_indent self) docs_str) in
  _insert_spec_lines self out pos spec_lines docs
  = (out ++ [leading_str]
       ++ concat ((fun spec_line => [indent_str; spec_line]) <$> spec_lines)
       ++ [LF; indent_str; Py.lstrip docs_str],
     end_pos (node_meta docs)).
Proof.
  cbn zeta. unfold _insert_spec_lines.
  f_equal. fold (field_indent (_indent self)
    (Py.slice (_source self)
       (pos + Py.len (Py.rstrip (Py.slice (_source self) pos (start_pos (node_meta docs)))))
       (end_pos (node_meta docs)))).
  rewrite foldl_spec_lines. by rewrite <- !(assoc_L (++)).
Qed.

(** C6. [_guess_indent] returns the least number of leading white-space
    characters among the lines of the tab-expanded text, the first line
    left out, that are not blank, and [None] (not zero) when there is no
    such line; the base indentation is the one guessed from the whole
    text; [_insert_spec_lines] puts a line feed and as many spaces as the
    field's own inferred indentation, else the base indentation plus
    four, else four, before every inserted line and before the text of
    the field. *)
Theorem guess_indent_minimum :
  (forall docstring,
      match _guess_indent docstring with
      | None => indented_lines docstring = []
      | Some n =>
          n ∈ (fun l => Z.of_nat (leading_whitespace l)) <$> indented_lines docstring
          /\ Forall (fun l => n <= Z.of_nat (leading_whitespace l))
               (indented_lines docstring)
      end)
  /\ (forall source specs, _indent (__init__ source specs) = _guess_indent source)
  /\ (forall self out pos spec_lines docs,
        let leading_str :=
          Py.rstrip (Py.slice (_source self) pos (start_pos (node_meta docs))) in
        let docs_str :=
          Py.slice (_source self) (pos + Py.len leading_str) (end_pos (node_meta docs)) in
        let indent_str := LF +:+ Py.spaces (field_indent (_indent self) docs_str) in
        _insert_spec_lines self out pos spec_lines docs
        = (out ++ [leading_str]
             ++ concat ((fun spec_line => [indent_str; spec_line]) <$> spec_lines)
             ++ [LF; indent_str; Py.lstrip docs_str],
           end_pos (node_meta docs)))
  /\ (forall n : nat, Py.spaces (Z.of_nat n) = string_of_list_ascii (replicate n " "%char)).
Proof.
  split; [|split; [done|split]].
  - intros docstring. unfold _guess_indent, indented_lines.
    set (lines := tail (Py.splitlines (Py.expandtabs docstring))).
    change (foldl _ (-1) lines) with (foldl guess_step (-1) lines).
    destruct (guess_loop lines (-1)) as (Hr & Hnone & Hsome); [lia|].
    cbn zeta in *. destruct (Z.eqb_spec (foldl guess_step (-1) lines) (-1)) as [E|E].
    + apply Hnone in E as [_ E]. by apply fmap_nil_inv in E.
    + destruct (Hsome E) as ([?|Hin] & _ & Hall); [done|]. split; [done|].
      by rewrite Forall_fmap in Hall.
  - intros self out pos spec_lines docs. apply insert_spec_lines_eq.
  - intros n. unfold Py.spaces. by rewrite Nat2Z.id.
Qed.
End Indentation.

(** ** The rendered lines per argument name *)

Section SpecLines.
Import RewritedocString.

(** The lines of the specifications whose root argument name is [key],
    in the order of the specifications. *)
Definition lines_of (key : string) (argument_specs : list ParsedArgumentSpec)
  : list string :=
  _argument_spec_to_sphinx <$>
    filter (fun spec => root_argument_name (argument_ref spec) = key) argument_specs.

Lemma group_lookup (key : string) (argument_specs : list ParsedArgumentSpec)
    (result : gmap string (list string)) :
  foldl (fun (result : gmap string (list string)) spec =>
           let key := root_argument_name (argument_ref spec) in
           <[key := default [] (result !! key) ++ [_argument_spec_to_sphinx spec]]> result)
    result argument_specs !! key
  = match lines_of key argument_specs with
    | [] => result !! key
    | lines => Some (default [] (result !! key) ++ lines)
    end.
Proof.
  revert result. unfold lines_of.
  induction argument_specs as [|spec specs IH]; intros result; [done|].
  cbn [foldl]. rewrite IH, filter_cons. clear IH.
  destruct (decide (root_argument_name (argument_ref spec) = key)) as [->|Hne].
  - rewrite lookup_insert_eq, fmap_cons. cbn [default].
    destruct (_ <$> filter _ specs); [done|].
    unfold id. by rewrite <- (assoc_L (++)).
  - by rewrite lookup_insert_ne.
Qed.

Lemma spec_lines_lookup (key : string) (argument_specs : list ParsedArgumentSpec) :
  _argument_specs_to_sphinx argument_specs !! key
  = match lines_of key argument_specs with
    | [] => None
    | lines => Some (sort_lines lines)
    end.
Proof.
  unfold _argument_specs_to_sphinx. rewrite lookup_fmap, group_lookup.
  rewrite lookup_empty. by destruct (lines_of key argument_specs).
Qed.

Lemma spec_lines_None key argument_specs :
  (forall spec, spec ∈ argument_specs -> root_argument_name (argument_ref spec) <> key) ->
  _argument_specs_to_sphinx argument_specs !! key = None.
Proof.
  intros Hno. rewrite spec_lines_lookup. unfold lines_of.
  destruct (filter _ argument_specs) as [|spec l] eqn:E; [done|].
  assert (spec ∈ filter (fun spec => root_argument_name (argument_ref spec) = key)
                    argument_specs) as Hin by (rewrite E; left).
  apply list_elem_of_filter in Hin as [Hk Hin]. by apply Hno in Hin.
Qed.

Lemma spec_lines_Some key argument_specs lines :
  _argument_specs_to_sphinx argument_specs !! key = Some lines ->
  lines <> []
  /\ exists spec, spec ∈ argument_specs /\ root_argument_name (argument_ref spec) = key.
Proof.
  rewrite spec_lines_lookup. unfold lines_of.
  destruct (filter _ argument_specs) as [|spec l] eqn:E; [done|].
  intros [= <-]. split.
  - intros Hnil. unfold sort_lines in Hnil.
    match type of Hnil with
    | merge_sort _ ?x = _ => pose proof (merge_sort_Permutation String.le x) as Hp
    end.
    rewrite Hnil in Hp. by apply Permutation_nil_l in Hp.
  - exists spec.
    assert (spec ∈ filter (fun spec => root_argument_name (argument_ref spec) = key)
                      argument_specs) as Hin by (rewrite E; left).
    apply list_elem_of_filter in Hin as [Hk Hin]. done.
Qed.
End SpecLines.

(** ** Documentation trees as the rewriter expects them *)

Section Fields.
Import RewritedocString.

Definition is_named (rule : string) (tree : Node) : bool :=
  match tree with
  | Tree data _ _ => String.eqb data rule
  | Token _ _ => false
  end.

(** What a parameter field or a returns field looks up, and the node of
    its text: for a parameter field with an arguments node and a text
    node, the last token of the arguments node (the empty string when it
    has none); for a returns field with a text node, the result token. *)
Definition field_lookup (field : Node) : option (string * Node) :=
  if is_named "info_field_param" field then
    match _tree_children field with
    | [info_field_args; docs] =>
        if is_named "info_field_args" info_field_args
        then Some (default "" (last (_token_children info_field_args)), docs)
        else None
    | _ => None
    end
  else if is_named "info_field_returns" field then
    match _tree_children field with
    | [docs] => Some (RESULT_TOKEN, docs)
    | _ => None
    end
  else None.

(** A field of one of the three kinds, with the children its method
    unpacks. *)
Definition well_formed_field (field : Node) : bool :=
  is_named "info_field_other" field || bool_decide (is_Some (field_lookup field)).

(** The fields of a documentation tree. *)
Definition docstring_fields (tree : Node) : list Node :=
  match _tree_children tree with
  | [_; info_fields] => _tree_children info_fields
  | _ => []
  end.

(** A documentation tree: a [docstring] node with a text node and an
    [info_fields] node of well-formed fields. *)
Definition well_formed_docstring (tree : Node) : bool :=
  is_named "docstring" tree
  && match _tree_children tree with
     | [_; info_fields] =>
         is_named "info_fields" info_fields
         && forallb well_formed_field (_tree_children info_fields)
     | _ => false
     end.

Variable self : t.

(** What visiting one well-formed field does to [out] and [pos]. *)
Definition field_step (st : list string * nat) (field : Node) : list string * nat :=
  match field_lookup field with
  | Some (key, docs) =>
      match _spec_lines self !! key with
      | Some (l :: ls) => _insert_spec_lines self st.1 st.2 (l :: ls) docs
      | _ => st
      end
  | None => st
  end.

Lemma is_named_eq rule tree :
  is_named rule tree = true -> exists children meta, tree = Tree rule children meta.
Proof.
  destruct tree as [data children meta|]; [|done]. cbn.
  intros ->%String.eqb_eq. eauto.
Qed.

Lemma visit_info_field_args children meta :
  visit self (Tree "info_field_args" children meta) NoArgs
  = Ok (RStr (default "" (last (_token_children (Tree "info_field_args" children meta))))).
Proof.
  unfold visit. rewrite visit_unfold.
  change (getattr self "info_field_args") with (Some info_field_args).
  unfold info_field_args. by destruct (last _).
Qed.

Lemma visit_info_field_param children meta info_field_args docs out pos :
  _tree_children (Tree "info_field_param" children meta) = [info_field_args; docs] ->
  is_named "info_field_args" info_field_args = true ->
  visit self (Tree "info_field_param" children meta) (OutPos out pos)
  = Ok (insert_if_any self
          (_spec_lines self !! default "" (last (_token_children info_field_args)))
          out pos docs).
Proof.
  intros Hc (acs & am & ->)%is_named_eq. unfold visit. rewrite visit_unfold.
  change (getattr self "info_field_param") with (Some (info_field_param self)).
  unfold info_field_param, visited_children. rewrite Hc. cbn [fmap list_fmap visit_child].
  fold (visit self (Tree "info_field_args" acs am) NoArgs).
  by rewrite visit_info_field_args.
Qed.

Lemma visit_info_field_returns children meta docs out pos :
  _tree_children (Tree "info_field_returns" children meta) = [docs] ->
  visit self (Tree "info_field_returns" children meta) (OutPos out pos)
  = Ok (insert_if_any self (_spec_lines self !! RESULT_TOKEN) out pos docs).
Proof.
  intros Hc. unfold visit. rewrite visit_unfold.
  change (getattr self "info_field_returns") with (Some (info_field_returns self)).
  unfold info_field_returns, visited_children. by rewrite Hc.
Qed.

Lemma visit_field field out pos :
  well_formed_field field = true ->
  visit self field (OutPos out pos)
  = Ok (let '(out, pos) := field_step (out, pos) field in RPos out pos).
Proof.
  unfold well_formed_field, field_step, field_lookup.
  destruct (is_named "info_field_param" field) eqn:Hp.
  { apply is_named_eq in Hp as (cs & m & ->). cbn [is_named String.eqb orb].
    change (String.eqb "info_field_param" "info_field_other") with false.
    cbn [orb].
    destruct (_tree_children _) as [|a [|docs [|]]] eqn:Hc;
      try (intros H; apply bool_decide_eq_true in H as [? [=]]; fail).
    destruct (is_named "info_field_args" a) eqn:Ha;
      [|intros H; apply bool_decide_eq_true in H as [? [=]]].
    intros _. rewrite (visit_info_field_param _ _ _ _ _ _ Hc Ha).
    unfold insert_if_any. cbn [fst snd].
    by destruct (_spec_lines self !! _) as [[|l ls]|]. }
  destruct (is_named "info_field_returns" field) eqn:Hr.
  { apply is_named_eq in Hr as (cs & m & ->). cbn [is_named String.eqb orb].
    change (String.eqb "info_field_returns" "info_field_other") with false.
    cbn [orb].
    destruct (_tree_children _) as [|docs [|]] eqn:Hc;
      try (intros H; apply bool_decide_eq_true in H as [? [=]]; fail).
    intros _. rewrite (visit_info_field_returns _ _ _ _ _ Hc).
    unfold insert_if_any. cbn [fst snd].
    by destruct (_spec_lines self !! _) as [[|l ls]|]. }
  destruct (is_named "info_field_other" field) eqn:Ho.
  - apply is_named_eq in Ho as (cs & m & ->). intros _.
    unfold visit. by rewrite visit_unfold.
  - intros H. cbn in H. discriminate H.
Qed.

Lemma visit_info_fields children meta out pos :
  forallb well_formed_field (_tree_children (Tree "info_fields" children meta)) = true ->
  visit self (Tree "info_fields" children meta) (OutPos out pos)
  = Ok (let '(out, pos) :=
          foldl field_step (out, pos) (_tree_children (Tree "info_fields" children meta))
        in RPos out pos).
Proof.
  unfold visit. rewrite visit_unfold.
  change (getattr self "info_fields") with (Some info_fields).
  unfold info_fields, visited_children.
  generalize (_tree_children (Tree "info_fields" children meta)). intros fields.
  revert out pos. induction fields as [|f fields IH]; intros out pos Hwf; [done|].
  cbn in Hwf. apply andb_true_iff in Hwf as [Hf Hwf].
  cbn [fmap list_fmap foldM foldl visit_child].
  fold (visit self f (OutPos out pos)). rewrite (visit_field _ _ _ Hf).
  destruct (field_step (out, pos) f) as [out' pos']. cbn.
  by apply IH.
Qed.

Lemma visit_docstring tree :
  well_formed_docstring tree = true ->
  visit self tree NoArgs
  = Ok (let '(out, pos) := foldl field_step ([], 0%nat) (docstring_fields tree) in
        RStr (Py.join "" (out ++ [Py.drop pos (_source self)]))).
Proof.
  unfold well_formed_docstring, docstring_fields.
  intros [(cs & m & ->)%is_named_eq H]%andb_true_iff.
  destruct (_tree_children _) as [|docs [|fs [|]]] eqn:Hc; try done.
  apply andb_true_iff in H as [(fcs & fm & ->)%is_named_eq Hwf].
  unfold visit. rewrite visit_unfold.
  change (getattr self "docstring") with (Some (docstring self)).
  unfold docstring, visited_children. rewrite Hc.
  cbn [fmap list_fmap visit_child].
  fold (visit self (Tree "info_fields" fcs fm) (OutPos [] 0%nat)).
  rewrite (visit_info_fields _ _ _ _ Hwf).
  by destruct (foldl _ _ _).
Qed.
End Fields.

(** ** Fields and the lines they look up *)

Section Lookup.
Import RewritedocString.

(** The text [:param x: the input], its tree and a specification of
    another argument. *)
Definition param_x_source : string := ":param x: the input".
Definition param_x_field : Node :=
  Tree "info_field_param"
    [ Token "PARAM" ":param";
      Tree "info_field_args" [Token "CNAME" "x"] (mkMeta 7 8);
      Tree "docs" [Token "ANY" "the input"] (mkMeta 10 19) ]
    (mkMeta 0 19).
Definition param_x_tree : Node :=
  Tree "docstring"
    [ Tree "docs" [] (mkMeta 0 0);
      Tree "info_fields" [param_x_field] (mkMeta 0 19) ]
    (mkMeta 0 19).
Definition spec_of (argument_name dimension : string) : ParsedArgumentSpec :=
  mkParsedArgumentSpec (RootArgumentRef argument_name)
    (mkParsedShapeSpec [mkParsedDimensionSpec None (Some dimension) false]).




Lemma foldl_field_step_no_match self (fields : list Node) st :
  (forall field key docs,
      field ∈ fields -> field_lookup field = Some (key, docs) ->
      _spec_lines self !! key = None) ->
  foldl (field_step self) st fields = st.
Proof.
  induction fields as [|f fields IH]; intros Hno; [done|].
  cbn [foldl]. assert (field_step self st f = st) as ->.
  { unfold field_step. destruct (field_lookup f) as [[key docs]|] eqn:E; [|done].
    rewrite (Hno f key docs); [done|left|done]. }
  apply IH. intros field key docs Hin. apply Hno. by right.
Qed.

(** C3. When no parameter field's argument name and no returns field
    (keyed by the result token) is the root argument name of a supplied
    specification, the rewrite of a documentation tree returns the
    original text. *)
Theorem rewrite_without_match source specs tree :
  well_formed_docstring tree = true ->
  (forall field key docs spec,
      field ∈ docstring_fields tree ->
      field_lookup field = Some (key, docs) ->
      spec ∈ specs ->
      root_argument_name (argument_ref spec) <> key) ->
  rewrite source specs tree = Ok source.
Proof.
  intros Hwf Hno. unfold rewrite. rewrite (visit_docstring _ _ Hwf).
  rewrite foldl_field_step_no_match; [done|].
  intros field key docs Hin Hk. apply spec_lines_None.
  intros spec. by apply Hno with field docs.
Qed.

Lemma rewrite_without_match_witness :
  rewrite param_x_source [spec_of "y" "n"; spec_of RESULT_TOKEN "m"] param_x_tree
  = Ok param_x_source.
Proof.
  apply rewrite_without_match; [reflexivity|].
  intros field key docs spec Hin Hk Hspec.
  apply list_elem_of_singleton in Hin as ->. injection Hk as <- <-.
  apply elem_of_cons in Hspec as [->|Hspec]; [done|].
  apply list_elem_of_singleton in Hspec as ->. done.
Defined.
End Lookup.

(** ** Facts about strings *)

Section StringFacts.

Lemma append_cons c s t : String c s +:+ t = String c (s +:+ t).
Proof. done. Qed.

Lemma append_nil_l s : "" +:+ s = s.
Proof. done. Qed.

Lemma append_nil_r s : s +:+ "" = s.
Proof. induction s as [|c s IH]; [done|]. by rewrite append_cons, IH. Qed.

Lemma append_assoc s1 s2 s3 : (s1 +:+ s2) +:+ s3 = s1 +:+ s2 +:+ s3.
Proof. induction s1 as [|c s1 IH]; [done|]. by rewrite !append_cons, IH. Qed.

Lemma len_append s1 s2 : Py.len (s1 +:+ s2) = (Py.len s1 + Py.len s2)%nat.
Proof.
  unfold Py.len. induction s1 as [|c s1 IH]; [done|].
  rewrite append_cons. cbn. by rewrite IH.
Qed.

Lemma take_drop n s : Py.take n s +:+ Py.drop n s = s.
Proof.
  revert s. induction n as [|n IH]; intros [|c s]; cbn; try done.
  by rewrite append_cons, IH.
Qed.

Lemma take_add a b s : Py.take (a + b) s = Py.take a s +:+ Py.take b (Py.drop a s).
Proof.
  revert s. induction a as [|a IH]; intros s; [done|].
  destruct s as [|c s]; cbn; [by destruct b|]. by rewrite append_cons, IH.
Qed.

Lemma take_append_ge n x y :
  (Py.len x <= n)%nat -> Py.take n (x +:+ y) = x +:+ Py.take (n - Py.len x) y.
Proof.
  unfold Py.len. revert n. induction x as [|c x IH]; intros n Hn; cbn in *.
  - by rewrite !append_nil_l, Nat.sub_0_r.
  - destruct n as [|n]; [lia|]. rewrite !append_cons. cbn. rewrite IH by lia. done.
Qed.

Lemma len_take_le n s : (Py.len (Py.take n s) <= n)%nat.
Proof.
  unfold Py.len. revert s. induction n as [|n IH]; intros [|c s]; cbn; try lia.
  specialize (IH s). lia.
Qed.

(** Nothing but white space. *)
Fixpoint all_space (s : string) : bool :=
  match s with
  | EmptyString => true
  | String c s' => Py.isspace c && all_space s'
  end.

Lemma all_space_append w1 w2 :
  all_space w1 = true -> all_space w2 = true -> all_space (w1 +:+ w2) = true.
Proof.
  induction w1 as [|c w1 IH]; [done|]. rewrite append_cons. cbn.
  intros [-> ?]%andb_true_iff ?. by apply IH.
Qed.

Lemma rstrip_nil_all_space s : Py.rstrip s = "" -> all_space s = true.
Proof.
  induction s as [|c s IH]; [done|]. cbn.
  destruct (Py.rstrip s); [|done]. destruct (Py.isspace c); [|done].
  intros _. by apply IH.
Qed.

Lemma rstrip_split s : exists w, s = Py.rstrip s +:+ w /\ all_space w = true.
Proof.
  induction s as [|c s (w & Hs & Hw)]; [by exists ""|]. cbn.
  destruct (Py.rstrip s) as [|d r] eqn:E.
  - destruct (Py.isspace c) eqn:Hc.
    + exists (String c s). split; [done|]. cbn. rewrite Hc.
      by apply rstrip_nil_all_space.
    + exists w. rewrite append_cons. split; [|done]. f_equal. exact Hs.
  - exists w. split; [|done]. rewrite append_cons. f_equal. exact Hs.
Qed.

Lemma lstrip_split s : exists w, s = w +:+ Py.lstrip s /\ all_space w = true.
Proof.
  induction s as [|c s (w & Hs & Hw)]; [by exists ""|]. cbn.
  destruct (Py.isspace c) eqn:Hc.
  - exists (String c w). rewrite append_cons. cbn. rewrite Hc, Hw.
    split; [|done]. f_equal. exact Hs.
  - by exists "".
Qed.

Lemma lstrip_append_space w s : all_space w = true -> Py.lstrip (w +:+ s) = Py.lstrip s.
Proof.
  induction w as [|c w IH]; [done|]. rewrite append_cons. cbn.
  intros [-> ?]%andb_true_iff. by apply IH.
Qed.

Lemma join_nil_cons x l : Py.join "" (x :: l) = x +:+ Py.join "" l.
Proof. unfold Py.join. destruct l; cbn; [by rewrite append_nil_r|done]. Qed.

Lemma join_nil_app l1 l2 : Py.join "" (l1 ++ l2) = Py.join "" l1 +:+ Py.join "" l2.
Proof.
  induction l1 as [|x l1 IH]; [done|].
  cbn [app]. rewrite !join_nil_cons, IH. by rewrite append_assoc.
Qed.
End StringFacts.

(** ** What the rewrite does to the original text *)

Section Splicing.
Import RewritedocString.


(** [o] arises from [s] by deleting white-space characters and inserting
    characters: all other characters of [s] are kept, in order. *)
Inductive ws_edit : string -> string -> Prop :=
| ws_edit_nil : ws_edit "" ""
| ws_edit_keep c s o : ws_edit s o -> ws_edit (String c s) (String c o)
| ws_edit_delete c s o : Py.isspace c = true -> ws_edit s o -> ws_edit (String c s) o
| ws_edit_insert c s o : ws_edit s o -> ws_edit s (String c o).

Lemma ws_edit_refl s : ws_edit s s.
Proof. induction s; by constructor. Qed.

Lemma ws_edit_insert_all ins s o : ws_edit s o -> ws_edit s (ins +:+ o).
Proof.
  intros H. induction ins as [|c ins IH]; [done|].
  rewrite append_cons. by constructor.
Qed.

Lemma ws_edit_delete_all w s o :
  all_space w = true -> ws_edit s o -> ws_edit (w +:+ s) o.
Proof.
  intros Hw H. induction w as [|c w IH]; [done|].
  cbn in Hw. apply andb_true_iff in Hw as [Hc Hw].
  rewrite append_cons. apply ws_edit_delete; [done|]. by apply IH.
Qed.

Lemma ws_edit_append a a' b b' :
  ws_edit a a' -> ws_edit b b' -> ws_edit (a +:+ b) (a' +:+ b').
Proof.
  intros Ha Hb. induction Ha as [|c s o Ha IH|c s o Hc Ha IH|c s o Ha IH];
    rewrite ?append_cons, ?append_nil_l; [done|by constructor..].
Qed.

(** The spans of the text nodes of the parameter and returns fields
    follow one another from [pos] on. *)
Fixpoint spans_in_order (pos : nat) (fields : list Node) : bool :=
  match fields with
  | [] => true
  | field :: fields' =>
      match field_lookup field with
      | Some (_, docs) =>
          (pos <=? start_pos (node_meta docs))%nat
          && (start_pos (node_meta docs) <=? end_pos (node_meta docs))%nat
          && spans_in_order (end_pos (node_meta docs)) fields'
      | None => spans_in_order pos fields'
      end
  end.

Lemma spans_in_order_le pos pos' fields :
  (pos' <= pos)%nat -> spans_in_order pos fields = true ->
  spans_in_order pos' fields = true.
Proof.
  revert pos pos'. induction fields as [|f fields IH]; intros pos pos' Hle; [done|].
  cbn. destruct (field_lookup f) as [[key docs]|]; [|by apply IH].
  intros [[H1%Nat.leb_le H2]%andb_true_iff H3]%andb_true_iff.
  rewrite H2, H3, !andb_true_r. apply Nat.leb_le. lia.
Qed.

(** One insertion: the text from the cursor to the end of the field is
    [leading_str], white space, [trailing_str]; the white space is what
    the insertion replaces. *)
Lemma insert_spec_lines_edit self out pos spec_lines docs :
  (pos <= start_pos (node_meta docs))%nat ->
  (start_pos (node_meta docs) <= end_pos (node_meta docs))%nat ->
  exists leading w inserted trailing,
    all_space w = true
    /\ Py.slice (_source self) pos (end_pos (node_meta docs))
       = leading +:+ w +:+ trailing
    /\ Py.join "" (_insert_spec_lines self out pos spec_lines docs).1
       = Py.join "" out +:+ leading +:+ inserted +:+ trailing
    /\ (_insert_spec_lines self out pos spec_lines docs).2 = end_pos (node_meta docs).
Proof.
  intros Hps Hse. rewrite insert_spec_lines_eq. cbn [fst snd].
  set (start := start_pos (node_meta docs)) in *.
  set (stop := end_pos (node_meta docs)) in *.
  set (rest := Py.drop pos (_source self)).
  unfold Py.slice. fold rest.
  destruct (rstrip_split (Py.take (start - pos) rest)) as (w1 & Hseg & Hw1).
  set (leading := Py.rstrip (Py.take (start - pos) rest)) in *.
  assert (Py.len leading + Py.len w1 <= start - pos)%nat as Hlen.
  { rewrite <- len_append, <- Hseg. apply len_take_le. }
  assert (rest = leading +:+ w1 +:+ Py.drop (start - pos) rest) as Hrest.
  { rewrite <- append_assoc, <- Hseg. by rewrite take_drop. }
  assert (Py.drop (pos + Py.len leading) (_source self)
          = w1 +:+ Py.drop (start - pos) rest) as Hdrop.
  { assert (forall a b s, Py.drop (a + b) s = Py.drop b (Py.drop a s)) as Hdd.
    { intros a b s. revert s. induction a as [|a IH]; intros [|c s]; cbn; try done.
      by destruct b. }
    assert (forall x y, Py.drop (Py.len x) (x +:+ y) = y) as Hda.
    { intros x y. induction x as [|c x IH]; [done|]. by rewrite append_cons. }
    rewrite Hdd. fold rest. rewrite Hrest at 1. apply Hda. }
  rewrite Hdrop.
  rewrite (take_append_ge _ w1) by lia.
  set (X := Py.take (stop - (pos + Py.len leading) - Py.len w1)
              (Py.drop (start - pos) rest)).
  rewrite lstrip_append_space by done.
  destruct (lstrip_split X) as (w2 & HX & Hw2).
  set (indent_str := LF +:+ Py.spaces (field_indent (_indent self) (w1 +:+ X))).
  exists leading, (w1 +:+ w2).
  exists (Py.join "" (concat ((fun spec_line => [indent_str; spec_line]) <$> spec_lines))
            +:+ LF +:+ indent_str).
  exists (Py.lstrip X).
  split; [by apply all_space_append|]. split; [|split; [|done]].
  - rewrite Hrest. rewrite (take_append_ge _ leading) by lia.
    rewrite (take_append_ge _ w1) by lia.
    replace (stop - pos - Py.len leading - Py.len w1)%nat
      with (stop - (pos + Py.len leading) - Py.len w1)%nat by lia.
    fold X. rewrite HX at 1. by rewrite !append_assoc.
  - rewrite !join_nil_app. rewrite !join_nil_cons.
    change (Py.join "" []) with "". rewrite !append_nil_r.
    by rewrite !append_assoc.
Qed.

Lemma foldl_field_step_edit self (fields : list Node) out pos lo :
  spans_in_order lo fields = true ->
  (pos <= lo)%nat ->
  ws_edit (Py.take pos (_source self)) (Py.join "" out) ->
  ws_edit (Py.take (foldl (field_step self) (out, pos) fields).2 (_source self))
    (Py.join "" (foldl (field_step self) (out, pos) fields).1).
Proof.
  revert out pos lo. induction fields as [|f fields IH]; intros out pos lo Hs Hle He;
    [done|].
  cbn [foldl]. cbn in Hs. unfold field_step at 2 4.
  destruct (field_lookup f) as [[key docs]|]; [|by apply IH with lo].
  apply andb_true_iff in Hs as [[H1%Nat.leb_le H2%Nat.leb_le]%andb_true_iff Hs].
  destruct (_spec_lines self !! key) as [[|l ls]|];
    try (apply IH with (end_pos (node_meta docs)); [done|cbn; lia|done]).
  cbn [fst snd].
  destruct (insert_spec_lines_edit self out pos (l :: ls) docs)
    as (leading & w & inserted & trailing & Hw & Hsrc & Hout & Hpos); [lia|lia|].
  destruct (_insert_spec_lines self out pos (l :: ls) docs) as [out' pos'].
  cbn [fst snd] in *. subst pos'.
  apply IH with (end_pos (node_meta docs)); [done|lia|]. rewrite Hout.
  replace (end_pos (node_meta docs))
    with (pos + (end_pos (node_meta docs) - pos))%nat at 1 by lia.
  rewrite take_add. unfold Py.slice in Hsrc. rewrite Hsrc.
  apply ws_edit_append; [done|]. apply ws_edit_append; [apply ws_edit_refl|].
  apply ws_edit_delete_all; [done|]. apply ws_edit_insert_all, ws_edit_refl.
Qed.

(** The text [:param x:<TAB>the input] and its tree. *)
Definition tab_source : string := ":param x:" +:+ TAB +:+ "the input".
Definition tab_rewritten : string :=
  ":param x:" +:+ LF +:+ "    * **x** has shape [*n*]." +:+ LF +:+ LF
    +:+ "    the input".


(** A consequence for the single characters: when the spans of the
    fields' text nodes follow one another, every character of the original
    text that is not white space is kept by the rewrite, unchanged and in
    order. *)
Theorem rewrite_edits_white_space_only source specs tree :
  well_formed_docstring tree = true ->
  spans_in_order 0 (docstring_fields tree) = true ->
  exists out, rewrite source specs tree = Ok out /\ ws_edit source out.
Proof.
  intros Hwf Hspans. unfold rewrite. rewrite (visit_docstring _ _ Hwf).
  set (self := __init__ source specs).
  pose proof (foldl_field_step_edit self (docstring_fields tree) [] 0 0 Hspans
                (Nat.le_refl 0)) as He.
  destruct (foldl (field_step self) ([], 0%nat) (docstring_fields tree)) as [out pos].
  cbn [fst snd] in He. eexists. split; [reflexivity|].
  rewrite join_nil_app, join_nil_cons. change (Py.join "" []) with "".
  rewrite append_nil_r.
  rewrite <- (take_drop pos source) at 1.
  apply ws_edit_append; [|apply ws_edit_refl].
  apply He. destruct (_source self); constructor.
Qed.

Lemma rewrite_edits_white_space_only_witness :
  exists out,
    rewrite tab_source [spec_of "x" "n"] param_x_tree = Ok out
    /\ ws_edit tab_source out.
Proof.
  apply rewrite_edits_white_space_only; reflexivity.
Defined.
End Splicing.

(** ** Terminal descriptions *)

Section TerminalDescriptions.

(** The description that a terminal gets when all is well. *)
Definition expected_description
    (re_descriptions : gmap string string) (terminal : TerminalDef) : option string :=
  match pattern terminal with
  | PatternStr value => Some (QUOTE +:+ value +:+ QUOTE)
  | PatternRE value =>
      d ← re_descriptions !! name terminal; Some (d +:+ " (re=" +:+ value +:+ ")")
  end.

Definition is_re (terminal : TerminalDef) : bool :=
  match pattern terminal with PatternRE _ => true | PatternStr _ => false end.

(** One turn of the loop returns when every unused description is one of
    the supplied ones, and then: *)
Lemma describe_terminal_step re st t :
  (forall k v, unused st !! k = Some v -> re !! k = Some v) ->
  exists st',
    describe_terminal re st t = Ok st'
    /\ (forall k v, unused st' !! k = Some v -> unused st !! k = Some v)
    /\ missing st ⊆ missing st'
    /\ (is_re t = true -> re !! name t = None -> name t ∈ missing st')
    /\ (forall k, (is_re t = true -> name t <> k) -> unused st' !! k = unused st !! k)
    /\ (forall k, name t <> k -> descriptions st' !! k = descriptions st !! k)
    /\ (name t ∉ missing st' -> descriptions st' !! name t = expected_description re t).
Proof.
  intros Hsub. unfold describe_terminal, expected_description, is_re.
  destruct (pattern t) as [value|value].
  - eexists. split; [done|]. cbn. split_and!.
    + done.
    + done.
    + done.
    + done.
    + intros k Hk. by rewrite lookup_insert_ne.
    + intros _. by rewrite lookup_insert_eq.
  - destruct (unused st !! name t) as [d|] eqn:Hu.
    + rewrite (Hsub _ _ Hu). eexists. split; [done|]. cbn. split_and!.
      * intros k v Hk. by apply lookup_delete_Some in Hk as [? ?].
      * done.
      * intros _ Hre. apply Hsub in Hu. congruence.
      * intros k Hk. apply lookup_delete_ne. by apply Hk.
      * intros k Hk. by rewrite lookup_insert_ne.
      * intros _. by rewrite lookup_insert_eq.
    + eexists. split; [done|]. cbn. split_and!.
      * done.
      * set_solver.
      * intros _ _. set_solver.
      * done.
      * intros k Hk. by rewrite lookup_insert_ne.
      * intros Hnot. exfalso. apply Hnot. set_solver.
Qed.

Lemma describe_loop re ts st :
  (forall k v, unused st !! k = Some v -> re !! k = Some v) ->
  exists st',
    foldM (describe_terminal re) st ts = Ok st'
    /\ (forall k v, unused st' !! k = Some v -> unused st !! k = Some v)
    /\ missing st ⊆ missing st'
    /\ (forall t, t ∈ ts -> is_re t = true -> re !! name t = None ->
                  name t ∈ missing st')
    /\ (forall k, (forall t, t ∈ ts -> is_re t = true -> name t <> k) ->
                  unused st' !! k = unused st !! k)
    /\ (forall k, k ∉ name <$> ts -> descriptions st' !! k = descriptions st !! k)
    /\ (NoDup (name <$> ts) ->
        forall t, t ∈ ts -> name t ∉ missing st' ->
                  descriptions st' !! name t = expected_description re t).
Proof.
  revert st. induction ts as [|t ts IH]; intros st Hsub.
  - exists st. cbn. split_and!.
    + done.
    + done.
    + done.
    + intros t Hin. by apply elem_of_nil in Hin.
    + done.
    + done.
    + intros _ t Hin. by apply elem_of_nil in Hin.
  - destruct (describe_terminal_step re st t Hsub)
      as (st1 & Hstep & Hu1 & Hm1 & Hmiss1 & Hkeep1 & Hd1 & Hexp1).
    destruct (IH st1) as (st' & Hloop & Hu & Hm & Hmiss & Hkeep & Hd & Hexp).
    { intros k v Hk. apply Hsub. by apply Hu1. }
    exists st'. cbn [foldM]. rewrite Hstep. cbn. split; [done|].
    split; [|split; [|split; [|split; [|split]]]].
    + intros k v Hk. by apply Hu1, Hu.
    + set_solver.
    + intros t' [->|Hin]%elem_of_cons Hre Hnone.
      * apply Hm. by apply Hmiss1.
      * by apply Hmiss.
    + intros k Hk. rewrite Hkeep.
      * apply Hkeep1. intros Hre. apply Hk; [left|done].
      * intros t' Hin. apply Hk. by right.
    + intros k Hk. cbn in Hk. apply not_elem_of_cons in Hk as [Hne Hk].
      rewrite Hd by done. apply Hd1. done.
    + cbn. intros [Hfresh Hnodup]%NoDup_cons t' [->|Hin]%elem_of_cons Hnot.
      * rewrite Hd by done. apply Hexp1. set_solver.
      * by apply Hexp.
Qed.

Lemma create_terminal_descriptions_eq parser re st :
  foldM (describe_terminal re) (mkDS ∅ re ∅) (terminals parser) = Ok st ->
  _create_terminal_descriptions parser re
  = (if bool_decide (unused st = ∅) && bool_decide (missing st = ∅)
     then Ok (descriptions st) else Raise AssertionError).
Proof.
  intros Hloop. unfold _create_terminal_descriptions. rewrite Hloop.
  cbn. unfold assert. by repeat case_bool_decide.
Qed.

Lemma create_terminal_descriptions_raises parser re e :
  _create_terminal_descriptions parser re = Raise e -> e = AssertionError.
Proof.
  destruct (describe_loop re (terminals parser) (mkDS ∅ re ∅)) as (st & Hloop & _);
    [done|].
  rewrite (create_terminal_descriptions_eq _ _ _ Hloop).
  destruct (_ && _); [done|]. by intros [= <-].
Qed.

Lemma create_terminal_descriptions_missing parser re t :
  t ∈ terminals parser -> is_re t = true -> re !! name t = None ->
  _create_terminal_descriptions parser re = Raise AssertionError.
Proof.
  intros Hin Hre Hnone.
  destruct (describe_loop re (terminals parser) (mkDS ∅ re ∅))
    as (st & Hloop & _ & _ & Hmiss & _); [done|].
  rewrite (create_terminal_descriptions_eq _ _ _ Hloop).
  case_bool_decide; [|done]. case_bool_decide as Hm; [|done].
  specialize (Hmiss t Hin Hre Hnone). set_solver.
Qed.

Lemma create_terminal_descriptions_redundant parser re key d :
  re !! key = Some d ->
  (forall t, t ∈ terminals parser -> is_re t = true -> name t <> key) ->
  _create_terminal_descriptions parser re = Raise AssertionError.
Proof.
  intros Hkey Hno.
  destruct (describe_loop re (terminals parser) (mkDS ∅ re ∅))
    as (st & Hloop & _ & _ & _ & Hkeep & _); [done|].
  rewrite (create_terminal_descriptions_eq _ _ _ Hloop).
  case_bool_decide as Hu; [|done]. exfalso.
  specialize (Hkeep key Hno). cbn in Hkeep. rewrite Hu, Hkey in Hkeep.
  by rewrite lookup_empty in Hkeep.
Qed.

Lemma create_terminal_descriptions_Ok parser re result t :
  _create_terminal_descriptions parser re = Ok result ->
  NoDup (name <$> terminals parser) ->
  t ∈ terminals parser ->
  exists description,
    result !! name t = Some description
    /\ expected_description re t = Some description.
Proof.
  intros Hok Hnodup Hin.
  destruct (describe_loop re (terminals parser) (mkDS ∅ re ∅))
    as (st & Hloop & _ & _ & Hmiss & _ & _ & Hexp); [done|].
  rewrite (create_terminal_descriptions_eq _ _ _ Hloop) in Hok.
  case_bool_decide as Hu; [|done]. case_bool_decide as Hm; [|done].
  cbn in Hok. injection Hok as <-.
  assert (name t ∉ missing st) as Hnot by (rewrite Hm; set_solver).
  specialize (Hexp Hnodup t Hin Hnot). rewrite Hexp.
  unfold expected_description. destruct (pattern t) as [v|v] eqn:Hp; [eauto|].
  destruct (re !! name t) as [d|] eqn:Hre; [cbn; eauto|].
  exfalso. apply Hnot. apply Hmiss; [done| |done]. unfold is_re. by rewrite Hp.
Qed.
End TerminalDescriptions.

(** ** Loading the module *)

Section Loading.

(** Two grammar engines for the examples below. The first has the
    terminals of a shape-specification grammar and parses the one text
    [x: [n]]; the second has the terminals of a documentation grammar and
    parses the one text [:param x: the input]; each rejects every other
    text at its end. *)
Definition example_argument_spec_parser : Lark :=
  mkLark
    [ mkTerminalDef "CNAME" (PatternRE "[a-zA-Z_]\w*");
      mkTerminalDef "INT" (PatternRE "[0-9]+");
      mkTerminalDef "WS" (PatternRE "\s+");
      mkTerminalDef "COLON" (PatternStr ":");
      mkTerminalDef "LSQB" (PatternStr "[");
      mkTerminalDef "RSQB" (PatternStr "]");
      mkTerminalDef "COMMA" (PatternStr ",");
      mkTerminalDef "DOT" (PatternStr ".");
      mkTerminalDef "STAR" (PatternStr "*");
      mkTerminalDef "ELLIPSIS" (PatternStr "...") ]
    (fun text =>
       if String.eqb text "x: [n]" then
         inr (Tree "argument_spec"
                [ Tree "argument_name" [Token "CNAME" "x"] (mkMeta 0 1);
                  Tree "argument_refs" [] (mkMeta 1 1);
                  Tree "shape_spec"
                    [ Tree "dimension_specs"
                        [Tree "dimension_spec_variable" [Token "CNAME" "n"] (mkMeta 4 5)]
                        (mkMeta 4 5) ]
                    (mkMeta 3 6) ]
                (mkMeta 0 6))
       else
         inl (mkUnexpectedInput (Py.len text) 1 (S (Py.len text))
                ["CNAME"; "INT"; "RSQB"; "DOT"; "STAR"; "ELLIPSIS"])).

Definition example_docstring_parser : Lark :=
  mkLark
    [ mkTerminalDef "ANY" (PatternRE ".+?");
      mkTerminalDef "CNAME" (PatternRE "[a-zA-Z_]\w*");
      mkTerminalDef "INFO_FIELD_OTHER" (PatternRE ":[a-z]+");
      mkTerminalDef "PARAM" (PatternRE ":param");
      mkTerminalDef "RETURNS" (PatternRE ":returns?");
      mkTerminalDef "WS" (PatternRE "\s+");
      mkTerminalDef "COLON" (PatternStr ":") ]
    (fun text =>
       if String.eqb text param_x_source then inr param_x_tree
       else inl (mkUnexpectedInput (Py.len text) 1 (S (Py.len text)) ["ANY"])).

(** The module as loaded with a pair of grammars, when loading succeeds. *)
Definition loaded (argument_spec_parser docstring_parser : Lark) : Module :=
  match import_module argument_spec_parser docstring_parser with
  | Ok M => M
  | Raise _ => mkModule argument_spec_parser docstring_parser ∅ ∅
  end.

Definition example_module : Module :=
  loaded example_argument_spec_parser example_docstring_parser.

Lemma import_example_module :
  import_module example_argument_spec_parser example_docstring_parser
  = Ok example_module.
Proof. reflexivity. Qed.

(** The shape-specification grammar with one pattern terminal more than
    the descriptions cover, and with one less. *)
Definition parser_with_extra_terminal : Lark :=
  mkLark (mkTerminalDef "FLOAT" (PatternRE "[0-9]+\.[0-9]+")
            :: terminals example_argument_spec_parser)
    (parse example_argument_spec_parser).
Definition parser_without_int : Lark :=
  mkLark (filter (fun t => name t <> "INT") (terminals example_argument_spec_parser))
    (parse example_argument_spec_parser).

(** C9. [_create_terminal_descriptions] fails with an assertion error
    when a pattern terminal of the grammar has no supplied description,
    and when a description is supplied under a name that no pattern
    terminal of the grammar has (so also under a name that is not in the
    grammar); importing the module then fails, and there is no module
    whose functions could be called; when it returns, every terminal of a
    grammar with distinct terminal names has its description: the quoted
    literal, or the supplied text followed by the pattern. *)
Theorem terminal_descriptions_checked :
  (forall parser re t,
      t ∈ terminals parser -> is_re t = true -> re !! name t = None ->
      _create_terminal_descriptions parser re = Raise AssertionError)
  /\ (forall parser re key d,
        re !! key = Some d ->
        (forall t, t ∈ terminals parser -> is_re t = true -> name t <> key) ->
        _create_terminal_descriptions parser re = Raise AssertionError)
  /\ (forall p1 p2 e,
        _create_terminal_descriptions p1 ARGUMENT_SPEC_RE_DESCRIPTIONS = Raise e
        \/ _create_terminal_descriptions p2 DOCSTRING_RE_DESCRIPTIONS = Raise e ->
        import_module p1 p2 = Raise AssertionError)
  /\ (forall p1 p2 M,
        import_module p1 p2 = Ok M ->
        _create_terminal_descriptions p1 ARGUMENT_SPEC_RE_DESCRIPTIONS
        = Ok (_ARGUMENT_SPEC_TERMINAL_DESCRIPTIONS M)
        /\ _create_terminal_descriptions p2 DOCSTRING_RE_DESCRIPTIONS
           = Ok (_DOCSTRING_TERMINAL_DESCRIPTIONS M))
  /\ (forall parser re result t,
        _create_terminal_descriptions parser re = Ok result ->
        NoDup (name <$> terminals parser) ->
        t ∈ terminals parser ->
        exists description,
          result !! name t = Some description
          /\ expected_description re t = Some description).
Proof.
  split_and!.
  - apply create_terminal_descriptions_missing.
  - apply create_terminal_descriptions_redundant.
  - intros p1 p2 e. unfold import_module.
    destruct (_create_terminal_descriptions p1 _) as [d1|e1] eqn:H1.
    + intros [?|H2]; [done|]. rewrite H2. cbn.
      by rewrite (create_terminal_descriptions_raises _ _ _ H2).
    + intros _. cbn. by rewrite (create_terminal_descriptions_raises _ _ _ H1).
  - intros p1 p2 M. unfold import_module. intros H. invert_Ok H.
    injection H as <-. by cbn.
  - apply create_terminal_descriptions_Ok.
Qed.

Lemma terminal_descriptions_checked_witness :
  _create_terminal_descriptions parser_with_extra_terminal ARGUMENT_SPEC_RE_DESCRIPTIONS
  = Raise AssertionError
  /\ _create_terminal_descriptions parser_without_int ARGUMENT_SPEC_RE_DESCRIPTIONS
     = Raise AssertionError
  /\ import_module parser_without_int example_docstring_parser = Raise AssertionError
  /\ (exists description,
        _ARGUMENT_SPEC_TERMINAL_DESCRIPTIONS example_module !! "INT" = Some description
        /\ expected_description ARGUMENT_SPEC_RE_DESCRIPTIONS
             (mkTerminalDef "INT" (PatternRE "[0-9]+")) = Some description).
Proof.
  destruct terminal_descriptions_checked as (Hmissing & Hredundant & Himport & _ & Hok).
  split_and!.
  - apply (Hmissing _ _ (mkTerminalDef "FLOAT" (PatternRE "[0-9]+\.[0-9]+")));
      [left|reflexivity|reflexivity].
  - apply (Hredundant _ _ "INT" "integer"); [reflexivity|].
    intros t Hin _. unfold parser_without_int in Hin. cbn [terminals] in Hin.
    by apply list_elem_of_filter in Hin as [? _].
  - apply (Himport _ _ AssertionError). left.
    apply (Hredundant _ _ "INT" "integer"); [reflexivity|].
    intros t Hin _. unfold parser_without_int in Hin. cbn [terminals] in Hin.
    by apply list_elem_of_filter in Hin as [? _].
  - apply (Hok example_argument_spec_parser ARGUMENT_SPEC_RE_DESCRIPTIONS
             (_ARGUMENT_SPEC_TERMINAL_DESCRIPTIONS example_module)
             (mkTerminalDef "INT" (PatternRE "[0-9]+"))).
    + reflexivity.
    + by apply (bool_decide_unpack _).
    + cbn. do 1 right. left.
Defined.

(** C1: the caches are looked up and never written. Both entry points
    leave the two dictionaries as they found them, so a text that was
    parsed or rewritten successfully on a miss is still not found by the
    next lookup: the module has no statement that stores into
    [_ARGUMENT_SPEC_CACHE] or [_SPHINX_DOCSTRING_CACHE]. *)
Theorem caches_never_populated :
  (forall M argument_spec context st,
      (parse_argument_spec M argument_spec context st).2 = st)
  /\ (forall M docstring argument_specs context st,
        (_parse_and_rewrite_sphinx_docstring M docstring argument_specs context st).2 = st)
  /\ (forall context,
        (parse_argument_spec example_module "x: [n]" context empty_caches).1
        = Ok (spec_of "x" "n")
        /\ _ARGUMENT_SPEC_CACHE
             (parse_argument_spec example_module "x: [n]" context empty_caches).2
           !! "x: [n]" = None)
  /\ (forall context,
        (_parse_and_rewrite_sphinx_docstring example_module param_x_source
           [spec_of "x" "n"] context empty_caches).1
        = Ok tab_rewritten
        /\ _SPHINX_DOCSTRING_CACHE
             (_parse_and_rewrite_sphinx_docstring example_module param_x_source
                [spec_of "x" "n"] context empty_caches).2
           !! (param_x_source, [spec_of "x" "n"]) = None).
Proof.
  split_and!.
  - intros M argument_spec context st. unfold parse_argument_spec.
    destruct (_ARGUMENT_SPEC_CACHE st !! argument_spec); [done|].
    by destruct (parse _ _).
  - intros M docstring argument_specs context st.
    unfold _parse_and_rewrite_sphinx_docstring.
    destruct (_SPHINX_DOCSTRING_CACHE st !! _); [done|].
    by destruct (parse _ _).
  - intros context. split; reflexivity.
  - intros context. split; reflexivity.
Qed.

(** C8. When the text is not in the cache and the grammar engine rejects
    it, [parse_argument_spec] raises a [SpecificationParseError] whose
    context is the caller's context stacked with the text, the engine's
    error (position and acceptable terminals) and the table of terminal
    descriptions. *)
Theorem parse_argument_spec_rejected M argument_spec context st e :
  _ARGUMENT_SPEC_CACHE st !! argument_spec = None ->
  parse (_ARGUMENT_SPEC_PARSER M) argument_spec = inl e ->
  (parse_argument_spec M argument_spec context st).1
  = Raise (SpecificationParseError
             (StackContext context
                (LarkUnexpectedInputContext argument_spec e
                   (_ARGUMENT_SPEC_TERMINAL_DESCRIPTIONS M)))).
Proof.
  intros Hmiss Hrej. unfold parse_argument_spec. by rewrite Hmiss, Hrej.
Qed.

Lemma parse_argument_spec_rejected_witness :
  (parse_argument_spec example_module "x: [" (CallerContext "f") empty_caches).1
  = Raise (SpecificationParseError
             (StackContext (CallerContext "f")
                (LarkUnexpectedInputContext "x: ["
                   (mkUnexpectedInput 4 1 5
                      ["CNAME"; "INT"; "RSQB"; "DOT"; "STAR"; "ELLIPSIS"])
                   (_ARGUMENT_SPEC_TERMINAL_DESCRIPTIONS example_module)))).
Proof.
  apply (parse_argument_spec_rejected example_module "x: [" (CallerContext "f")
           empty_caches); reflexivity.
Defined.
End Loading.

(** * Further properties *)

#[local] Set Warnings "-clear-no-such-hyp".

(** ** Induction on trees *)

(** Induction on a node with the property at hand for all its children. *)
Fixpoint Node_children_ind (P : Node -> Prop)
    (Htoken : forall ty v, P (Token ty v))
    (Htree : forall data children meta, Forall P children -> P (Tree data children meta))
    (n : Node) {struct n} : P n :=
  match n with
  | Token ty v => Htoken ty v
  | Tree data children meta =>
      Htree data children meta
        ((fix go (cs : list Node) : Forall P cs :=
            match cs with
            | [] => List.Forall_nil P
            | c :: cs' =>
                @List.Forall_cons _ P c cs' (Node_children_ind P Htoken Htree c) (go cs')
            end) children)
  end.

Lemma Forall_tree_children (P : Node -> Prop) data children meta :
  Forall P children -> Forall P (_tree_children (Tree data children meta)).
Proof.
  intros H. cbn. rewrite Forall_forall in *.
  intros c [_ Hin]%list_elem_of_filter. by apply H.
Qed.

(** ** The reference chain keeps its root *)

Section ReferenceChain.
Import ParseArgumentSpec.

(** Visiting [tree] with one argument returns a reference only when the
    argument is a reference, and then one with the same root. *)
Definition keeps_root (tree : Node) : Prop :=
  forall a r',
    visit tree [a] = Ok (VRef r') ->
    exists r, a = VRef r /\ root_argument_name r' = root_argument_name r.

Lemma foldM_keeps_root (trees : list Node) a r' :
  Forall keeps_root trees ->
  foldM (fun result (argument_ref : pchild) => visit_child argument_ref [result]) a
    ((fun c => mkChild c (TreeVisitor.visit getattr c)) <$> trees) = Ok (VRef r') ->
  exists r, a = VRef r /\ root_argument_name r' = root_argument_name r.
Proof.
  intros Hall. revert a. induction Hall as [|c cs Hc _ IH]; intros a H; cbn in H.
  - injection H as ->. eauto.
  - invert_Ok H. destruct (IH _ H) as (r1 & -> & Hroot).
    destruct (Hc _ _ Hv) as (r & -> & Hroot'). exists r. split; [done|]. congruence.
Qed.

Lemma visit_keeps_root tree : keeps_root tree.
Proof.
  induction tree as [ty v|data children meta IH] using Node_children_ind;
    intros a r'; [discriminate|].
  unfold visit. rewrite visit_unfold.
  unfold getattr, methods. cbn [lookup_method].
  repeat match goal with
    | |- context [if String.eqb ?n data then _ else _] => destruct (String.eqb n data)
    end;
    try discriminate.
  - apply foldM_keeps_root. by apply Forall_tree_children.
  - unfold argument_ref_attribute. intros H. invert_Ok H.
    destruct a; try discriminate Hv. injection Hv as ->. injection H as <-. eauto.
  - unfold argument_ref_index. intros H. invert_Ok H.
    destruct a; try discriminate Hv0. injection Hv0 as ->. injection H as <-. eauto.
  - unfold shape_spec. intros H. invert_Ok H. discriminate H.
Qed.

(** X2. The root argument name is fixed by the name node alone: whatever
    the reference-chain node contains (attributes, indices, nested chains),
    a visit of it that returns a reference returns one with the root of
    the reference it was given; and a specification that [argument_spec]
    returns has as its root argument name the single token of the first
    tree child. *)
Theorem root_argument_name_kept :
  (forall children meta r r',
      visit (Tree "argument_refs" children meta) [VRef r] = Ok (VRef r') ->
      root_argument_name r' = root_argument_name r)
  /\ (forall children meta a,
        visit (Tree "argument_spec" children meta) [] = Ok (VSpec a) ->
        exists name_node refs_node shape_node,
          _tree_children (Tree "argument_spec" children meta)
          = [name_node; refs_node; shape_node]
          /\ _token_children name_node = [root_argument_name (argument_ref a)]).
Proof.
  split.
  - intros children meta r r' H.
    destruct (visit_keeps_root _ _ _ H) as (r0 & [= <-] & Hroot). done.
  - intros children meta a. unfold visit. rewrite visit_unfold.
    change (getattr "argument_spec") with (Some argument_spec).
    unfold argument_spec, visited_children.
    destruct (_tree_children _) as [|n [|rs [|sh [|]]]]; try discriminate.
    cbn [fmap list_fmap visit_child]. intros H. invert_Ok H.
    destruct v0 as [r'| | | |]; try discriminate Hv2. injection Hv2 as ->.
    injection H as <-. cbn [argument_ref].
    destruct (visit_keeps_root _ _ _ Hv0) as (r & -> & ->).
    exists n, rs, sh. split; [done|]. clear Hv0 Hv1 Hv3.
    destruct n as [data cs m|]; [|discriminate]. rewrite visit_unfold in Hv.
    unfold getattr, methods in Hv. cbn [lookup_method] in Hv.
    repeat match type of Hv with
      | context [if String.eqb ?n data then _ else _] => destruct (String.eqb n data)
      end;
      try discriminate Hv.
    + unfold argument_spec in Hv. invert_Ok Hv. discriminate Hv.
    + unfold argument_name in Hv. invert_Ok Hv. by injection Hv as <-.
    + unfold dimension_specs in Hv. invert_Ok Hv. discriminate Hv.
    + unfold dimension_spec_constant in Hv. invert_Ok Hv. discriminate Hv.
    + unfold dimension_spec_variable in Hv. invert_Ok Hv.
    + unfold dimension_spec_variable_rank in Hv. invert_Ok Hv; discriminate Hv.
Qed.

Lemma root_argument_name_kept_witness :
  root_argument_name (IndexArgumentRef (AttributeArgumentRef (RootArgumentRef "a") "b") 2)
  = root_argument_name (RootArgumentRef "a")
  /\ exists name_node refs_node shape_node,
       _tree_children spec_a_b_2 = [name_node; refs_node; shape_node]
       /\ _token_children name_node = ["a"].
Proof.
  split.
  - apply (proj1 root_argument_name_kept
             [ Tree "argument_ref_attribute" [Token "CNAME" "b"] (mkMeta 1 3);
               Tree "argument_ref_index" [Token "INT" "2"] (mkMeta 3 6) ]
             (mkMeta 1 6)).
    reflexivity.
  - apply (proj2 root_argument_name_kept _ _
             (mkParsedArgumentSpec
                (IndexArgumentRef (AttributeArgumentRef (RootArgumentRef "a") "b") 2)
                (mkParsedShapeSpec
                   [ mkParsedDimensionSpec (Some 3) None false;
                     mkParsedDimensionSpec None (Some "batch") true;
                     mkParsedDimensionSpec None None false ]))).
    reflexivity.
Defined.
End ReferenceChain.

(** ** One dimension per child, in order *)

Section DimensionOrder.
Import ParseArgumentSpec.

Lemma mapM'_Forall2 {A B} (f : A -> result B) (l : list A) (bs : list B) :
  mapM' f l = Ok bs -> Forall2 (fun a b => f a = Ok b) l bs.
Proof.
  revert bs. induction l as [|a l IH]; intros bs H; cbn in H.
  - injection H as <-. constructor.
  - invert_Ok H. injection H as <-. constructor; [done|]. by apply IH.
Qed.

(** X3. The tuple that [dimension_specs] returns has exactly one entry per
    tree child of the node, in the order of the children, and each entry is
    what the visit of that child returns: no dimension is dropped,
    duplicated or reordered, and tokens between the children (separators)
    count for nothing. *)
Theorem dimension_specs_in_order children meta ds :
  visit (Tree "dimension_specs" children meta) [] = Ok (VDims ds) ->
  Forall2 (fun child d => visit child [] = Ok (VDim d))
    (_tree_children (Tree "dimension_specs" children meta)) ds
  /\ length ds = length (filter is_tree children).
Proof.
  unfold visit. rewrite visit_unfold.
  change (getattr "dimension_specs") with (Some dimension_specs).
  unfold dimension_specs, visited_children. intros H. invert_Ok H. injection H as <-.
  apply mapM'_Forall2 in Hv. rewrite Forall2_fmap_l in Hv.
  assert (Forall2 (fun child d => TreeVisitor.visit getattr child [] = Ok (VDim d))
            (_tree_children (Tree "dimension_specs" children meta)) v) as Hall.
  { eapply Forall2_impl; [exact Hv|]. cbn. intros c d Hc. invert_Ok Hc.
    destruct v0; try discriminate Hc. by injection Hc as ->. }
  split; [done|]. symmetry. exact (Forall2_length _ _ _ Hall).
Qed.

Lemma dimension_specs_in_order_witness :
  Forall2 (fun child d => visit child [] = Ok (VDim d))
    [ Tree "dimension_spec_constant" [Token "INT" "3"] (mkMeta 0 1);
      Tree "dimension_spec_anonymous" [] (mkMeta 3 4) ]
    [ mkParsedDimensionSpec (Some 3) None false; mkParsedDimensionSpec None None false ]
  /\ length [ mkParsedDimensionSpec (Some 3) None false;
              mkParsedDimensionSpec None None false ] = 2%nat.
Proof.
  apply (dimension_specs_in_order
           [ Tree "dimension_spec_constant" [Token "INT" "3"] (mkMeta 0 1);
             Token "COMMA" ",";
             Tree "dimension_spec_anonymous" [] (mkMeta 3 4) ]
           (mkMeta 0 4)).
  reflexivity.
Defined.
End DimensionOrder.

(** ** Grouping and sorting of the rendered lines *)

Section Grouping.
Import RewritedocString.

(** X4. [_argument_specs_to_sphinx] has an entry for a name exactly when a
    specification has that root argument name; the entry is never empty,
    is in ascending order and is a permutation of the renderings of the
    specifications with that root name: no line is lost or repeated. *)
Theorem spec_lines_grouped argument_specs key :
  match _argument_specs_to_sphinx argument_specs !! key with
  | None =>
      forall spec, spec ∈ argument_specs -> root_argument_name (argument_ref spec) <> key
  | Some lines =>
      lines <> []
      /\ Sorted String.le lines
      /\ lines ≡ₚ _argument_spec_to_sphinx <$>
                   filter (fun spec => root_argument_name (argument_ref spec) = key)
                     argument_specs
  end.
Proof.
  rewrite spec_lines_lookup. unfold lines_of.
  destruct (filter _ argument_specs) as [|spec l] eqn:E.
  - cbn. intros spec Hin Hk.
    assert (spec ∈ filter (fun spec => root_argument_name (argument_ref spec) = key)
                      argument_specs) as Hf by (by apply list_elem_of_filter).
    rewrite E in Hf. by apply elem_of_nil in Hf.
  - rewrite fmap_cons. unfold sort_lines.
    set (lines := _ :: _).
    pose proof (merge_sort_Permutation String.le lines) as Hp.
    split_and!.
    + intros Hnil. rewrite Hnil in Hp. by apply Permutation_nil_l in Hp.
    + apply Sorted_merge_sort. apply _.
    + exact Hp.
Qed.
End Grouping.

(** ** When the terminal descriptions are accepted *)

Section DescriptionsAccepted.

(** The names of the pattern terminals, in the order of the grammar. *)
Definition pattern_names (ts : list TerminalDef) : list string :=
  name <$> filter (fun t => is_re t = true) ts.

Lemma describe_terminal_literal re st t value :
  pattern t = PatternStr value ->
  describe_terminal re st t
  = Ok (mkDS (missing st) (unused st)
          (<[name t := QUOTE +:+ value +:+ QUOTE]> (descriptions st)))
  /\ is_re t = false.
Proof. intros Hp. unfold describe_terminal, is_re. by rewrite Hp. Qed.

Lemma describe_terminal_pattern re st t value :
  pattern t = PatternRE value ->
  is_re t = true
  /\ match unused st !! name t with
     | Some _ =>
         describe_terminal re st t
         = match re !! name t with
           | Some d =>
               Ok (mkDS (missing st) (delete (name t) (unused st))
                     (<[name t := d +:+ " (re=" +:+ value +:+ ")"]> (descriptions st)))
           | None => Raise KeyError
           end
     | None =>
         describe_terminal re st t
         = Ok (mkDS ({[name t]} ∪ missing st) (unused st)
                 (<[name t := "ERROR"]> (descriptions st)))
     end.
Proof.
  intros Hp. unfold describe_terminal, is_re. rewrite Hp. split; [done|].
  by destruct (unused st !! name t).
Qed.

Lemma describe_loop_exact re ts st :
  (forall k v, unused st !! k = Some v -> re !! k = Some v) ->
  exists st' (M : gset string),
    foldM (describe_terminal re) st ts = Ok st'
    /\ missing st' = missing st ∪ M
    /\ (M = ∅ <->
        NoDup (pattern_names ts)
        /\ forall n, n ∈ pattern_names ts -> is_Some (unused st !! n))
    /\ dom (unused st') = dom (unused st) ∖ list_to_set (pattern_names ts)
    /\ dom (descriptions st') = dom (descriptions st) ∪ list_to_set (name <$> ts).
Proof.
  revert st. induction ts as [|t ts IH]; intros st Hsub.
  - exists st, ∅. cbn. split_and!; [done|set_solver| |set_solver|set_solver].
    split; [|done]. intros _. split; [constructor|]. intros n Hn.
    by apply elem_of_nil in Hn.
  - unfold pattern_names in *. cbn [foldM]. rewrite filter_cons.
    destruct (pattern t) as [value|value] eqn:Hp.
    + destruct (describe_terminal_literal re st t value Hp) as [-> Hre].
      rewrite decide_False by (by rewrite Hre).
      destruct (IH (mkDS (missing st) (unused st)
                      (<[name t := QUOTE +:+ value +:+ QUOTE]> (descriptions st))))
        as (st' & M & Hloop & Hm & HM & Hu & Hd); [done|].
      exists st', M. cbn in *. split_and!; try done.
      rewrite Hd, dom_insert_L. set_solver.
    + destruct (describe_terminal_pattern re st t value Hp) as [Hre Hstep].
      rewrite decide_True by done. rewrite fmap_cons.
      destruct (unused st !! name t) as [d|] eqn:Hlook.
      * rewrite Hstep, (Hsub _ _ Hlook).
        destruct (IH (mkDS (missing st) (delete (name t) (unused st))
                        (<[name t := d +:+ " (re=" +:+ value +:+ ")"]> (descriptions st))))
          as (st' & M & Hloop & Hm & HM & Hu & Hd).
        { cbn. intros k v [_ Hk]%lookup_delete_Some. by apply Hsub. }
        exists st', M. cbn in *. split_and!; try done.
        -- rewrite HM. split.
           ++ intros [Hnd Hall]. split.
              ** constructor; [|done]. intros Hin. apply Hall in Hin as [x Hx].
                 by rewrite lookup_delete_eq in Hx.
              ** intros n [->|Hin]%elem_of_cons; [done|].
                 apply Hall in Hin as [x [_ Hx]%lookup_delete_Some]. done.
           ++ intros [[Hfresh Hnd]%NoDup_cons Hall]. split; [done|].
              intros n Hin. destruct (Hall n) as [x Hx]; [by right|].
              exists x. apply lookup_delete_Some. split; [|done].
              intros Heq. apply Hfresh. by rewrite Heq.
        -- rewrite Hu, dom_delete_L. set_solver.
        -- rewrite Hd, dom_insert_L. set_solver.
      * rewrite Hstep.
        destruct (IH (mkDS ({[name t]} ∪ missing st) (unused st)
                        (<[name t := "ERROR"]> (descriptions st))))
          as (st' & M & Hloop & Hm & HM & Hu & Hd); [done|].
        exists st', ({[name t]} ∪ M). cbn in *. split_and!; try done.
        -- rewrite Hm. set_solver.
        -- split; [set_solver|]. intros [_ Hall]. exfalso.
           destruct (Hall (name t)) as [x Hx]; [left|]. congruence.
        -- rewrite Hu. apply not_elem_of_dom in Hlook. set_solver.
        -- rewrite Hd, dom_insert_L. set_solver.
Qed.

(** X5. [_create_terminal_descriptions] returns exactly when the pattern
    terminals of the grammar have distinct names and these names are the
    keys of the supplied descriptions; the table it returns then has an
    entry for every terminal of the grammar and for nothing else. In every
    other case it raises, and what it raises is an assertion error. *)
Theorem create_terminal_descriptions_exact parser re :
  match _create_terminal_descriptions parser re with
  | Ok result =>
      NoDup (pattern_names (terminals parser))
      /\ list_to_set (pattern_names (terminals parser)) = dom re
      /\ dom result = list_to_set (name <$> terminals parser)
  | Raise e =>
      e = AssertionError
      /\ ~ (NoDup (pattern_names (terminals parser))
            /\ list_to_set (pattern_names (terminals parser)) = dom re)
  end.
Proof.
  destruct (describe_loop_exact re (terminals parser) (mkDS ∅ re ∅))
    as (st & M & Hloop & Hm & HM & Hu & Hd); [done|].
  rewrite (create_terminal_descriptions_eq _ _ _ Hloop). cbn in *.
  case_bool_decide as Hunused; cbn; [case_bool_decide as Hmissing; cbn|].
  - assert (M = ∅) as HM0 by set_solver. apply HM in HM0 as [Hnd Hall].
    split_and!; [done| |set_solver].
    rewrite Hunused, dom_empty_L in Hu.
    apply set_eq. intros n. split.
    + intros Hin%elem_of_list_to_set. by apply elem_of_dom, Hall.
    + intros Hin. destruct (decide (n ∈ pattern_names (terminals parser)));
        [by apply elem_of_list_to_set|].
      assert (n ∈ dom re ∖ list_to_set (C:=gset string) (pattern_names (terminals parser)))
        as Hbad by set_solver.
      rewrite <- Hu in Hbad. set_solver.
  - split; [done|]. intros [Hnd Heq]. apply Hmissing.
    rewrite Hm. assert (M = ∅) as ->; [|set_solver].
    apply HM. split; [done|]. intros n Hin. apply elem_of_dom. rewrite <- Heq.
    by apply elem_of_list_to_set.
  - split; [done|]. intros [Hnd Heq]. apply Hunused.
    apply dom_empty_inv_L. rewrite Hu, <- Heq. set_solver.
Qed.
End DescriptionsAccepted.

(** ** Rewriting without specifications *)

Section NoSpecifications.
Import RewritedocString.

(** Visiting [tree] with the list [out] and the cursor [pos] returns them
    as they were. *)
Definition leaves_cursor (self : t) (tree : Node) : Prop :=
  forall out pos v, visit self tree (OutPos out pos) = Ok v -> v = RPos out pos.

Lemma foldM_leaves_cursor self (trees : list Node) out pos out' pos' :
  Forall (leaves_cursor self) trees ->
  foldM (fun '(out, pos) (child : rchild) =>
           v ← visit_child child (OutPos out pos); as_pos v)
    (out, pos) ((fun c => mkChild c (TreeVisitor.visit (getattr self) c)) <$> trees)
  = Ok (out', pos') ->
  out' = out /\ pos' = pos.
Proof.
  intros Hall. revert out pos.
  induction Hall as [|c cs Hc _ IH]; intros out pos H; cbn in H.
  - by injection H as <- <-.
  - invert_Ok H. invert_Ok Hv. apply Hc in Hv0 as ->. cbn in Hv.
    injection Hv as <-. by apply IH.
Qed.

Lemma visit_leaves_cursor self tree :
  (forall key, _spec_lines self !! key = None) -> leaves_cursor self tree.
Proof.
  intros Hnone.
  induction tree as [ty tv|data children meta IH] using Node_children_ind;
    intros out pos v; [discriminate|].
  unfold visit. rewrite visit_unfold.
  unfold getattr, methods. cbn [lookup_method].
  repeat match goal with
    | |- context [if String.eqb ?n data then _ else _] => destruct (String.eqb n data)
    end;
    try discriminate.
  - unfold info_fields. intros H. invert_Ok H. destruct v0 as [out' pos'].
    injection H as <-.
    apply foldM_leaves_cursor in Hv as [-> ->]; [done|].
    by apply Forall_tree_children.
  - unfold info_field_param. intros H. invert_Ok H. injection H as <-.
    by rewrite Hnone.
  - unfold info_field_returns. intros H. invert_Ok H. injection H as <-.
    by rewrite Hnone.
  - unfold info_field_other. by intros [= <-].
Qed.

(** X6. Without specifications nothing is inserted, whatever the tree:
    a rewrite of a [docstring] node that returns, returns the original
    text, also for a tree with fields of shapes that the grammar never
    builds (nested field lists, fields with further children). *)
Theorem rewrite_without_specs source tree out :
  is_named "docstring" tree = true ->
  rewrite source [] tree = Ok out ->
  out = source.
Proof.
  intros (children & meta & ->)%is_named_eq. unfold rewrite. intros H. invert_Ok H.
  unfold visit in Hv. rewrite visit_unfold in Hv.
  change (getattr (__init__ source []) "docstring")
    with (Some (docstring (__init__ source []))) in Hv.
  unfold docstring, visited_children in Hv.
  destruct (_tree_children _) as [|docs [|fields [|]]]; try discriminate Hv.
  cbn [fmap list_fmap visit_child] in Hv. invert_Ok Hv.
  apply (visit_leaves_cursor (__init__ source []) fields) in Hv0 as ->; [|done].
  cbn in Hv1. injection Hv1 as <-. injection Hv as <-. cbn in H.
  injection H as <-. by subst.
Qed.

(** A tree whose field list holds a field list and a parameter field with
    a third tree child. *)
Definition nested_fields_tree : Node :=
  Tree "docstring"
    [ Tree "docs" [] (mkMeta 0 0);
      Tree "info_fields"
        [ Tree "info_fields" [param_x_field] (mkMeta 0 19);
          Tree "info_field_other" [Tree "docs" [] (mkMeta 19 19)] (mkMeta 19 19) ]
        (mkMeta 0 19) ]
    (mkMeta 0 19).

Lemma rewrite_without_specs_witness :
  exists out,
    rewrite param_x_source [] nested_fields_tree = Ok out /\ out = param_x_source.
Proof.
  eexists. split; [reflexivity|].
  apply (rewrite_without_specs param_x_source nested_fields_tree); reflexivity.
Defined.
End NoSpecifications.

(** ** The inserted lines are in the output *)

Section InsertedLines.
Import RewritedocString.






End InsertedLines.

(** ** The first line does not count for the indentation *)

Section FirstLine.
Import RewritedocString.

(** No character of [s] ends a line. *)
Fixpoint no_linebreak (s : string) : bool :=
  match s with
  | EmptyString => true
  | String c s' => negb (Py.is_linebreak c) && no_linebreak s'
  end.

Lemma expandtabs_from_line col first rest :
  Py.expandtabs_from col (first +:+ LF +:+ rest)
  = Py.expandtabs_from col first +:+ LF +:+ Py.expandtabs_from 0 rest.
Proof.
  revert col. induction first as [|c first IH]; intros col; [done|].
  rewrite append_cons. cbn [Py.expandtabs_from].
  destruct (Ascii.eqb c "009"); [by rewrite IH, append_assoc|].
  destruct (Ascii.eqb c "010" || Ascii.eqb c "013"); by rewrite IH, append_cons.
Qed.

Lemma no_linebreak_spaces n s :
  no_linebreak (Py.spaces n +:+ s) = no_linebreak s.
Proof.
  unfold Py.spaces. induction (Z.to_nat n) as [|k IH]; [done|].
  cbn [replicate string_of_list_ascii]. rewrite append_cons. cbn. exact IH.
Qed.

Lemma no_linebreak_expandtabs col s :
  no_linebreak s = true -> no_linebreak (Py.expandtabs_from col s) = true.
Proof.
  revert col. induction s as [|c s IH]; intros col; [done|]. cbn.
  intros [Hc Hs]%andb_true_iff.
  destruct (Ascii.eqb c "009"); [rewrite no_linebreak_spaces; by apply IH|].
  destruct (Ascii.eqb c "010" || Ascii.eqb c "013"); cbn; rewrite Hc; by apply IH.
Qed.

Lemma splitlines_go_one_line cur s :
  no_linebreak s = true -> tail (Py.splitlines_go cur s) = [].
Proof.
  revert cur. induction s as [|c s IH]; intros cur; cbn; [by destruct cur|].
  intros [Hc Hs]%andb_true_iff. apply negb_true_iff in Hc. rewrite Hc. by apply IH.
Qed.

Lemma splitlines_go_first_line cur first rest :
  no_linebreak first = true ->
  tail (Py.splitlines_go cur (first +:+ LF +:+ rest)) = Py.splitlines_go None rest.
Proof.
  revert cur. induction first as [|c first IH]; intros cur.
  - intros _. by destruct rest.
  - cbn [no_linebreak]. intros [Hc Hs]%andb_true_iff. apply negb_true_iff in Hc.
    rewrite append_cons. cbn [Py.splitlines_go]. rewrite Hc. by apply IH.
Qed.

(** X8. [_guess_indent] never looks at the first line: a text without a
    line break has no indentation to guess, and the indentation guessed
    for a text is the one guessed for the text with its first line
    emptied, whatever the first line holds (tabs, leading spaces). *)
Theorem guess_indent_ignores_first_line first rest :
  no_linebreak first = true ->
  _guess_indent first = None
  /\ _guess_indent (first +:+ LF +:+ rest) = _guess_indent (LF +:+ rest).
Proof.
  intros Hfirst. split.
  - unfold _guess_indent, Py.splitlines, Py.expandtabs.
    rewrite splitlines_go_one_line; [done|]. by apply no_linebreak_expandtabs.
  - unfold _guess_indent, Py.splitlines, Py.expandtabs.
    rewrite expandtabs_from_line.
    rewrite splitlines_go_first_line by (by apply no_linebreak_expandtabs).
    change (LF +:+ rest) with ("" +:+ LF +:+ rest).
    rewrite (expandtabs_from_line 0 "" rest).
    by rewrite (splitlines_go_first_line None (Py.expandtabs_from 0 "") _).
Qed.

Lemma guess_indent_ignores_first_line_witness :
  _guess_indent ("        Summary." +:+ TAB) = None
  /\ _guess_indent (("        Summary." +:+ TAB) +:+ LF +:+ "  :param x: the input")
     = _guess_indent (LF +:+ "  :param x: the input").
Proof.
  apply (guess_indent_ignores_first_line ("        Summary." +:+ TAB)
           "  :param x: the input").
  reflexivity.
Defined.
End FirstLine.

(** ** Numbers are read back as they are written *)

Section NumberRoundTrip.

(** No character of [s] is white space for [int]. *)
Fixpoint no_space (s : string) : bool :=
  match s with
  | EmptyString => true
  | String c s' => negb (Py.int_isspace c) && no_space s'
  end.

Lemma strip_no_space s : no_space s = true -> Py.int_rstrip (Py.int_lstrip s) = s.
Proof.
  intros Hs.
  assert (Py.int_lstrip s = s) as ->.
  { destruct s as [|c s]; [done|]. cbn in *.
    apply andb_true_iff in Hs as [Hc _]. apply negb_true_iff in Hc. by rewrite Hc. }
  induction s as [|c s IH]; [done|]. cbn in *.
  apply andb_true_iff in Hs as [Hc Hs]. apply negb_true_iff in Hc.
  rewrite (IH Hs), Hc. by destruct s.
Qed.

Lemma no_space_digits d : no_space (NilEmpty.string_of_uint d) = true.
Proof. induction d; cbn; done. Qed.

Lemma int_digits_acc d p :
  Py.int_digits (Z.pos p) true (NilEmpty.string_of_uint d)
  = Some (Z.pos (Pos.of_uint_acc d p)).
Proof.
  revert p. induction d as [|d IH|d IH|d IH|d IH|d IH|d IH|d IH|d IH|d IH|d IH];
    intros p; [done|..];
    cbn [NilEmpty.string_of_uint Py.int_digits Pos.of_uint_acc];
    match goal with
    | |- context [Py.digit_of ?c] =>
        let v := eval vm_compute in (Py.digit_of c) in
        change (Py.digit_of c) with v
    end;
    cbn match; rewrite <- IH; f_equal; lia.
Qed.

Lemma int_digits_zero d after_digit :
  Py.int_digits 0 after_digit (NilEmpty.string_of_uint d)
  = match d with
    | Decimal.Nil => if after_digit then Some 0 else None
    | _ => Some (Z.of_N (Pos.of_uint d))
    end.
Proof.
  revert after_digit.
  induction d as [|d IH|d IH|d IH|d IH|d IH|d IH|d IH|d IH|d IH|d IH];
    intros after_digit; [done|..];
    cbn [NilEmpty.string_of_uint Py.int_digits Pos.of_uint];
    match goal with
    | |- context [Py.digit_of ?c] =>
        let v := eval vm_compute in (Py.digit_of c) in
        change (Py.digit_of c) with v
    end;
    cbn match.
  - change (10 * 0 + 0) with 0. rewrite IH. by destruct d.
  - apply (int_digits_acc d 1).
  - apply (int_digits_acc d 2).
  - apply (int_digits_acc d 3).
  - apply (int_digits_acc d 4).
  - apply (int_digits_acc d 5).
  - apply (int_digits_acc d 6).
  - apply (int_digits_acc d 7).
  - apply (int_digits_acc d 8).
  - apply (int_digits_acc d 9).
Qed.

Lemma int_of_str_digits p :
  Py.int_digits 0 false (NilEmpty.string_of_uint (Pos.to_uint p)) = Some (Z.pos p).
Proof.
  rewrite int_digits_zero. pose proof (DecimalPos.Unsigned.to_uint_nonnil p) as Hnn.
  rewrite DecimalPos.Unsigned.of_to. by destruct (Pos.to_uint p).
Qed.

Lemma int_of_str_of_int n : Py.int_of_str (Py.str_of_int n) = Some n.
Proof.
  unfold Py.int_of_str, Py.str_of_int. destruct n as [|p|p]; [done|..];
    cbn [Z.to_int NilZero.string_of_int NilZero.string_of_uint];
    pose proof (DecimalPos.Unsigned.to_uint_nonnil p) as Hnn;
    pose proof (int_of_str_digits p) as Hdigits;
    pose proof (no_space_digits (Pos.to_uint p)) as Hspace.
  - assert (NilZero.string_of_uint (Pos.to_uint p)
            = NilEmpty.string_of_uint (Pos.to_uint p)) as -> by (by destruct (Pos.to_uint p)).
    rewrite strip_no_space by done.
    destruct (NilEmpty.string_of_uint (Pos.to_uint p)) as [|c r] eqn:E;
      [by destruct (Pos.to_uint p)|].
    assert (Ascii.eqb c "-" = false /\ Ascii.eqb c "+" = false) as [-> ->]; [|done].
    destruct (Pos.to_uint p); try done; cbn in E; injection E as <- _; done.
  - assert (NilZero.string_of_uint (Pos.to_uint p)
            = NilEmpty.string_of_uint (Pos.to_uint p)) as -> by (by destruct (Pos.to_uint p)).
    rewrite strip_no_space by (cbn; exact Hspace).
    change (Ascii.eqb "-" "-") with true. cbn match. by rewrite Hdigits.
Qed.

(** X10. What the renderings write for a number, the model builder reads
    back as that number: the text of [str(n)] is accepted by [int] and
    gives [n]; so the rendering of a constant dimension is a token from
    which [dimension_spec_constant] builds that dimension again, and the
    index shown for an [IndexArgumentRef] is a token from which
    [argument_ref_index] builds that reference again. *)
Theorem numbers_read_back :
  (forall n, int (Py.str_of_int n) = Ok n)
  /\ (forall c ty meta,
        ParseArgumentSpec.visit
          (Tree "dimension_spec_constant"
             [Token ty (RewritedocString._shape_spec_to_sphinx
                          (mkParsedShapeSpec [dim_constant c]))] meta) []
        = Ok (VDim (dim_constant c)))
  /\ (forall source i ty meta,
        ParseArgumentSpec.visit
          (Tree "argument_ref_index" [Token ty (Py.str_of_int i)] meta) [VRef source]
        = Ok (VRef (IndexArgumentRef source i))
        /\ repr (IndexArgumentRef source i)
           = repr source +:+ "[" +:+ Py.str_of_int i +:+ "]").
Proof.
  assert (forall n, int (Py.str_of_int n) = Ok n) as Hint.
  { intros n. unfold int. by rewrite int_of_str_of_int. }
  split_and!; [done| |].
  - intros c ty meta.
    change (RewritedocString._shape_spec_to_sphinx (mkParsedShapeSpec [dim_constant c]))
      with (Py.str_of_int c).
    change (ParseArgumentSpec.visit
              (Tree "dimension_spec_constant" [Token ty (Py.str_of_int c)] meta) [])
      with (n ← int (Py.str_of_int c);
            Ok (VDim (mkParsedDimensionSpec (Some n) None false))).
    by rewrite Hint.
  - intros source i ty meta. split; [|done].
    change (ParseArgumentSpec.visit
              (Tree "argument_ref_index" [Token ty (Py.str_of_int i)] meta) [VRef source])
      with (n ← int (Py.str_of_int i); s ← as_ref (VRef source);
            Ok (VRef (IndexArgumentRef s n))).
    by rewrite Hint.
Qed.
End NumberRoundTrip.

(** ** The order of the specifications does not matter *)

Section SpecificationOrder.
Import RewritedocString.

Lemma spec_lines_Permutation specs specs' :
  specs ≡ₚ specs' ->
  _argument_specs_to_sphinx specs = _argument_specs_to_sphinx specs'.
Proof.
  intros Hp. apply map_eq. intros key. rewrite !spec_lines_lookup.
  assert (lines_of key specs ≡ₚ lines_of key specs') as Hl.
  { unfold lines_of. by rewrite Hp. }
  assert (sort_lines (lines_of key specs) = sort_lines (lines_of key specs')) as Hs.
  { unfold sort_lines. apply (Sorted_unique String.le).
    - apply Sorted_merge_sort. apply _.
    - apply Sorted_merge_sort. apply _.
    - by rewrite !merge_sort_Permutation. }
  destruct (lines_of key specs) as [|l ls], (lines_of key specs') as [|l' ls']; try done.
  - by apply Permutation_nil_cons in Hl.
  - symmetry in Hl. by apply Permutation_nil_cons in Hl.
  - by rewrite Hs.
Qed.

(** X11. The rewritten text depends on the specifications as a multiset
    only: supplying them in another order gives the same table of lines
    and the same result of the rewrite, an error included, for every text
    and every tree. *)
Theorem rewrite_specification_order source specs specs' tree :
  specs ≡ₚ specs' ->
  _argument_specs_to_sphinx specs = _argument_specs_to_sphinx specs'
  /\ rewrite source specs tree = rewrite source specs' tree.
Proof.
  intros Hp. pose proof (spec_lines_Permutation _ _ Hp) as Heq. split; [done|].
  unfold rewrite, __init__. by rewrite Heq.
Qed.

Lemma rewrite_specification_order_witness :
  _argument_specs_to_sphinx [spec_of "x" "n"; spec_of "x" "m"]
  = _argument_specs_to_sphinx [spec_of "x" "m"; spec_of "x" "n"]
  /\ rewrite param_x_source [spec_of "x" "n"; spec_of "x" "m"] param_x_tree
     = rewrite param_x_source [spec_of "x" "m"; spec_of "x" "n"] param_x_tree.
Proof.
  apply rewrite_specification_order. apply Permutation_swap.
Defined.
End SpecificationOrder.

(** ** The text around one matching field *)

Section OneField.
Import RewritedocString.

(** X12. When exactly one field of a documentation tree finds lines, the
    rewritten text is: the original text up to the start of that field's
    text node with trailing white space removed; then each line after a
    line feed and the indentation; then an empty line, the indentation and
    the field's text with leading white space removed; then the original
    text from the end of the text node on, unchanged. The fields before
    and after are not touched. *)
Theorem rewrite_one_field source specs tree before field after key docs lines :
  well_formed_docstring tree = true ->
  docstring_fields tree = before ++ field :: after ->
  (forall other k d,
      other ∈ before ++ after -> field_lookup other = Some (k, d) ->
      _argument_specs_to_sphinx specs !! k = None) ->
  field_lookup field = Some (key, docs) ->
  _argument_specs_to_sphinx specs !! key = Some lines ->
  let leading_str := Py.rstrip (Py.slice source 0 (start_pos (node_meta docs))) in
  let docs_str := Py.slice source (Py.len leading_str) (end_pos (node_meta docs)) in
  let indent_str := LF +:+ Py.spaces (field_indent (_guess_indent source) docs_str) in
  rewrite source specs tree
  = Ok (leading_str
          +:+ Py.join "" (concat ((fun spec_line => [indent_str; spec_line]) <$> lines))
          +:+ LF +:+ indent_str +:+ Py.lstrip docs_str
          +:+ Py.drop (end_pos (node_meta docs)) source).
Proof.
  intros Hwf Hfields Hothers Hlook Hlines. cbn zeta. unfold rewrite.
  rewrite (visit_docstring _ _ Hwf), Hfields. set (self := __init__ source specs).
  rewrite foldl_app. cbn [foldl].
  rewrite (foldl_field_step_no_match self before).
  2:{ intros other k d Hin. apply Hothers. apply elem_of_app. by left. }
  assert (field_step self ([], 0%nat) field
          = _insert_spec_lines self [] 0 lines docs) as ->.
  { unfold field_step. rewrite Hlook. cbn [self _spec_lines __init__]. rewrite Hlines.
    destruct lines as [|l ls]; [|done].
    by apply spec_lines_Some in Hlines as [? _]. }
  rewrite foldl_field_step_no_match.
  2:{ intros other k d Hin. apply Hothers. apply elem_of_app. by right. }
  rewrite insert_spec_lines_eq. cbn [fst snd mbind result_bind as_str].
  f_equal. cbn [self _source _indent __init__ Nat.add app].
  rewrite <- !(assoc_L (++)). cbn [app].
  rewrite join_nil_cons, !join_nil_app, !join_nil_cons.
  change (Py.join "" []) with "". by rewrite append_nil_r, !append_assoc.
Qed.

Lemma rewrite_one_field_witness :
  rewrite param_x_source [spec_of "x" "n"] param_x_tree
  = Ok (":param x:"
          +:+ Py.join "" [LF +:+ Py.spaces 4; "* **x** has shape [*n*]."]
          +:+ LF +:+ (LF +:+ Py.spaces 4) +:+ "the input"
          +:+ "").
Proof.
  apply (rewrite_one_field param_x_source [spec_of "x" "n"] param_x_tree
           [] param_x_field [] "x"
           (Tree "docs" [Token "ANY" "the input"] (mkMeta 10 19))
           ["* **x** has shape [*n*]."]).
  - reflexivity.
  - reflexivity.
  - intros other k d Hin. by apply elem_of_nil in Hin.
  - reflexivity.
  - reflexivity.
Defined.
End OneField.

(** ** The public entry point for documentation *)

(** Modelled from the spec: [DocstringFormat] of [config.py], the "one
    global enumerated setting controlling documentation rewriting". *)
Inductive DocstringFormat :=
| SPHINX
| NONE.

#[global] Instance DocstringFormat_eq_dec : EqDecision DocstringFormat.
Proof. solve_decision. Defined.

Section PublicEntryPoint.
Variable M : Module.

(** [parse_and_rewrite_docstring]; [rewrite_docstrings] is what
    [get_rewrite_docstrings()] returns at the time of the call. *)
Definition parse_and_rewrite_docstring
    (rewrite_docstrings : DocstringFormat)
    (docstring : option string) (argument_specs : list ParsedArgumentSpec)
    (context : ErrorContext) (st : Caches)
  : result (option string) * Caches :=
  match docstring with
  | None => (Ok None, st)
  | Some docstring =>
      let docstring_format := rewrite_docstrings in
      if bool_decide (docstring_format = NONE) then (Ok (Some docstring), st)
      else
        match assert (bool_decide (docstring_format = SPHINX)) with
        | Raise e => (Raise e, st)
        | Ok _ =>
            let '(r, st) :=
              _parse_and_rewrite_sphinx_docstring M docstring argument_specs context st in
            (Some <$> r, st)
        end
  end.
End PublicEntryPoint.

Section PublicEntryPointProperties.

(** X9. [parse_and_rewrite_docstring] hands an absent text back as absent
    and, when rewriting is switched off, hands the text back as it is
    without parsing it, so also a text that the grammar rejects; with
    rewriting switched on, a cached text comes back from the cache without
    parsing, and a text that is not cached and that the grammar rejects
    raises a [DocstringParseError] carrying the caller's context, the text,
    the engine's error and the descriptions of the documentation
    terminals. *)
Theorem parse_and_rewrite_docstring_paths M specs context st :
  (forall format, parse_and_rewrite_docstring M format None specs context st = (Ok None, st))
  /\ (forall docstring,
        parse_and_rewrite_docstring M NONE (Some docstring) specs context st
        = (Ok (Some docstring), st))
  /\ (forall docstring cached,
        _SPHINX_DOCSTRING_CACHE st !! (docstring, specs) = Some cached ->
        parse_and_rewrite_docstring M SPHINX (Some docstring) specs context st
        = (Ok (Some cached), st))
  /\ (forall docstring e,
        _SPHINX_DOCSTRING_CACHE st !! (docstring, specs) = None ->
        parse (_DOCSTRING_PARSER M) docstring = inl e ->
        parse_and_rewrite_docstring M SPHINX (Some docstring) specs context st
        = (Raise (DocstringParseError
                    (StackContext context
                       (LarkUnexpectedInputContext docstring e
                          (_DOCSTRING_TERMINAL_DESCRIPTIONS M)))),
           st)).
Proof.
  split_and!.
  - done.
  - done.
  - intros docstring cached Hhit. unfold parse_and_rewrite_docstring. cbn.
    unfold _parse_and_rewrite_sphinx_docstring. by rewrite Hhit.
  - intros docstring e Hmiss Hrej. unfold parse_and_rewrite_docstring. cbn.
    unfold _parse_and_rewrite_sphinx_docstring. by rewrite Hmiss, Hrej.
Qed.

Lemma parse_and_rewrite_docstring_paths_witness :
  parse_and_rewrite_docstring example_module NONE (Some ":param") [] (CallerContext "f")
    empty_caches
  = (Ok (Some ":param"), empty_caches)
  /\ parse_and_rewrite_docstring example_module SPHINX (Some ":param x:") []
       (CallerContext "f")
       (mkCaches ∅ {[ (":param x:", []) := ":param x: cached" ]})
     = (Ok (Some ":param x: cached"),
        mkCaches ∅ {[ (":param x:", []) := ":param x: cached" ]})
  /\ parse_and_rewrite_docstring example_module SPHINX (Some ":param") []
       (CallerContext "f") empty_caches
     = (Raise (DocstringParseError
                 (StackContext (CallerContext "f")
                    (LarkUnexpectedInputContext ":param"
                       (mkUnexpectedInput 6 1 7 ["ANY"])
                       (_DOCSTRING_TERMINAL_DESCRIPTIONS example_module)))),
        empty_caches).
Proof.
  split_and!.
  - apply (proj1 (proj2 (parse_and_rewrite_docstring_paths example_module []
                           (CallerContext "f") empty_caches))).
  - apply (proj1 (proj2 (proj2 (parse_and_rewrite_docstring_paths example_module []
                                  (CallerContext "f") _)))).
    reflexivity.
  - apply (proj2 (proj2 (proj2 (parse_and_rewrite_docstring_paths example_module []
                                  (CallerContext "f") empty_caches))));
      reflexivity.
Defined.
End PublicEntryPointProperties.

(** ** The rewrite as a replacement of white-space runs *)

Section WhiteSpaceRuns.
Import RewritedocString.



























End WhiteSpaceRuns.
